(** * Simplified DES (S-DES): a shallow embedding of [o.py] and its properties

    The Python class [SDES] is modelled as a record holding the instance
    fields; its methods are functions taking the instance ([self]) first.
    Python integers are [Z]; Python lists of integers are [list Z].
    Operations that can raise in Python (list indexing, [int()] on a
    character) live in a small exception monad. *)

From Stdlib Require Import ZArith List Lia Bool Ascii Permutation.
Import ListNotations.
Local Open Scope Z_scope.

(** ** The fragment of Python the program uses *)

Module Py.

Inductive exn : Type :=
| IndexError
| ValueError.

Inductive result (A : Type) : Type :=
| OK (a : A)
| Raise (e : exn).
Arguments OK {A} a.
Arguments Raise {A} e.

Definition bind {A B : Type} (m : result A) (k : A -> result B) : result B :=
  match m with
  | OK a => k a
  | Raise e => Raise e
  end.

Definition len {A : Type} (l : list A) : Z := Z.of_nat (List.length l).

(** [l[i]]: a negative index counts from the end of the list; anything
    outside [-len, len) raises [IndexError]. *)
Definition index {A : Type} (l : list A) (i : Z) : result A :=
  let j := if i <? 0 then i + len l else i in
  if (j <? 0) || (len l <=? j) then Raise IndexError
  else match nth_error l (Z.to_nat j) with
       | Some a => OK a
       | None => Raise IndexError
       end.

(** Bound of a slice: negative bounds count from the end, and every bound
    is clamped into [0, len]. *)
Definition clamp (n k : Z) : Z :=
  if k <? 0 then Z.max 0 (n + k) else Z.min k n.

(** [l[k:]] *)
Definition slice_from {A : Type} (l : list A) (k : Z) : list A :=
  skipn (Z.to_nat (clamp (len l) k)) l.

(** [l[:k]] *)
Definition slice_to {A : Type} (l : list A) (k : Z) : list A :=
  firstn (Z.to_nat (clamp (len l) k)) l.

(** [[f(x) for x in l]]: elements are evaluated left to right and the first
    exception aborts the comprehension. *)
Fixpoint comprehension {A B : Type} (f : A -> result B) (l : list A)
  : result (list B) :=
  match l with
  | [] => OK []
  | x :: xs =>
      bind (f x) (fun y =>
      bind (comprehension f xs) (fun ys => OK (y :: ys)))
  end.

(** [range(n)] *)
Definition range (n : nat) : list Z := map Z.of_nat (seq 0 n).

(** [enumerate(l)] *)
Definition enumerate {A : Type} (l : list A) : list (Z * A) :=
  combine (range (List.length l)) l.

(** Binary digits of a positive number, most significant first. *)
Fixpoint bin_pos (p : positive) : list ascii :=
  match p with
  | xH => ["1"%char]
  | xO q => bin_pos q ++ ["0"%char]
  | xI q => bin_pos q ++ ["1"%char]
  end.

(** [f"{value:02b}"]: binary, zero-padded to a minimum width of two; a
    negative value carries a leading minus sign (which counts in the
    width). *)
Definition format_02b (value : Z) : list ascii :=
  match value with
  | Z0 => ["0"%char; "0"%char]
  | Zpos p =>
      let d := bin_pos p in
      if (List.length d <? 2)%nat then "0"%char :: d else d
  | Zneg p => "-"%char :: bin_pos p
  end.

(** [int(x)] on a one-character string drawn from the output of
    [format_02b]: the digits convert, the minus sign raises. *)
Definition int_of_char (c : ascii) : result Z :=
  if Ascii.eqb c "0"%char then OK 0
  else if Ascii.eqb c "1"%char then OK 1
  else Raise ValueError.

End Py.

Import Py.

Notation "x <- m ;; k" := (bind m (fun x => k))
  (at level 61, m at next level, right associativity).

(** ** The class [SDES] *)

Record SDES : Type := mkSDES {
  key : list Z;
  P10 : list Z;
  P8 : list Z;
  IP : list Z;
  IP_INV : list Z;
  EP : list Z;
  P4 : list Z;
  S0 : list (list Z);
  S1 : list (list Z);
  K1 : list Z;
  K2 : list Z
}.

Definition permute (self : SDES) (sequence table : list Z) : result (list Z) :=
  comprehension (fun i => index sequence (i - 1)) table.

Definition left_shift (self : SDES) (half : list Z) (shifts : Z) : list Z :=
  slice_from half shifts ++ slice_to half shifts.

Definition generate_keys (self : SDES) : result (list Z * list Z) :=
  key <- permute self (key self) (P10 self) ;;
  let left := slice_to key 5 in
  let right := slice_from key 5 in
  let left := left_shift self left 1 in
  let right := left_shift self right 1 in
  K1 <- permute self (left ++ right) (P8 self) ;;
  let left := left_shift self left 2 in
  let right := left_shift self right 2 in
  K2 <- permute self (left ++ right) (P8 self) ;;
  OK (K1, K2).

Definition sbox (self : SDES) (half : list Z) (sbox : list (list Z))
  : result (list Z) :=
  h0 <- index half 0 ;;
  h3 <- index half 3 ;;
  let row := Z.shiftl h0 1 + h3 in
  h1 <- index half 1 ;;
  h2 <- index half 2 ;;
  let col := Z.shiftl h1 1 + h2 in
  r <- index sbox row ;;
  value <- index r col ;;
  comprehension int_of_char (format_02b value).

Definition feistel (self : SDES) (half subkey : list Z) : result (list Z) :=
  expanded <- permute self half (EP self) ;;
  xor_result <- comprehension
                  (fun i => e <- index expanded i ;;
                            k <- index subkey i ;;
                            OK (Z.lxor e k))
                  (range 8) ;;
  let left := slice_to xor_result 4 in
  let right := slice_from xor_result 4 in
  s0 <- sbox self left (S0 self) ;;
  s1 <- sbox self right (S1 self) ;;
  let sbox_output := s0 ++ s1 in
  permute self sbox_output (P4 self).

(** [[left[i] ^ bit for i, bit in enumerate(f)]] *)
Definition xor_enumerate (left f : list Z) : result (list Z) :=
  comprehension (fun ib => l <- index left (fst ib) ;; OK (Z.lxor l (snd ib)))
                (enumerate f).

Definition encrypt (self : SDES) (plaintext : list Z) : result (list Z) :=
  data <- permute self plaintext (IP self) ;;
  let left := slice_to data 4 in
  let right := slice_from data 4 in
  let temp := right in
  f <- feistel self right (K1 self) ;;
  left <- xor_enumerate left f ;;
  let right := left in
  let left := temp in
  f <- feistel self right (K2 self) ;;
  left <- xor_enumerate left f ;;
  permute self (left ++ right) (IP_INV self).

Definition decrypt (self : SDES) (ciphertext : list Z) : result (list Z) :=
  data <- permute self ciphertext (IP self) ;;
  let left := slice_to data 4 in
  let right := slice_from data 4 in
  let temp := right in
  f <- feistel self right (K2 self) ;;
  left <- xor_enumerate left f ;;
  let right := left in
  let left := temp in
  f <- feistel self right (K1 self) ;;
  left <- xor_enumerate left f ;;
  permute self (left ++ right) (IP_INV self).

(** [__init__]: the fields are assigned in order; [generate_keys] runs on the
    instance once the key and the tables are set, and reads only [key],
    [P10] and [P8], so the not yet assigned [K1] and [K2] are left empty in
    the instance it receives. *)
Definition init (key : list Z) : result SDES :=
  let self :=
    {| key := key;
       P10 := [3; 5; 2; 7; 4; 10; 1; 9; 8; 6];
       P8 := [6; 3; 7; 4; 8; 5; 10; 9];
       IP := [2; 6; 3; 1; 4; 8; 5; 7];
       IP_INV := [4; 1; 3; 5; 7; 2; 8; 6];
       EP := [4; 1; 2; 3; 2; 3; 4; 1];
       P4 := [2; 4; 3; 1];
       S0 := [[1; 0; 3; 2]; [3; 2; 1; 0]; [0; 2; 1; 3]; [3; 1; 3; 2]];
       S1 := [[0; 1; 2; 3]; [2; 0; 1; 3]; [3; 0; 1; 0]; [2; 1; 0; 3]];
       K1 := [];
       K2 := [] |} in
  ks <- generate_keys self ;;
  OK {| key := key;
        P10 := P10 self; P8 := P8 self; IP := IP self; IP_INV := IP_INV self;
        EP := EP self; P4 := P4 self; S0 := S0 self; S1 := S1 self;
        K1 := fst ks; K2 := snd ks |}.

(** The usage example at the end of the module. *)
Definition example_key : list Z := [1; 0; 1; 0; 0; 0; 0; 0; 1; 0].
Definition example_plaintext : list Z := [1; 1; 0; 1; 0; 1; 1; 1].


(** ** Well-formed inputs *)

Definition is_bit (z : Z) : Prop := z = 0 \/ z = 1.

(** A sequence of exactly [n] bits. *)
Definition bits (n : nat) (l : list Z) : Prop :=
  List.length l = n /\ Forall is_bit l.

Definition wf_key (k : list Z) : Prop := bits 10 k.
Definition wf_block (b : list Z) : Prop := bits 8 b.

(** A substitution table: a 4 x 4 grid of values in [0, 3]. *)
Definition wf_sbox (t : list (list Z)) : Prop :=
  List.length t = 4%nat /\
  Forall (fun r => List.length r = 4%nat /\ Forall (fun v => 0 <= v <= 3) r) t.

(** ** The operations as the specification words them *)

Module Ref.

(** Output bit [j] is [source[table[j] - 1]]. *)
Definition permute (source table : list Z) : list Z :=
  map (fun t => nth (Z.to_nat (t - 1)) source 0) table.

(** [rotate(h, r) = h[r:n] ++ h[0:r]], [r] taken modulo [n]. *)
Definition rotate (h : list Z) (r : nat) : list Z :=
  let k := (r mod List.length h)%nat in
  skipn k h ++ firstn k h.

(** Pointwise exclusive or of two sequences. *)
Definition xor (a b : list Z) : list Z :=
  map (fun p => Z.lxor (fst p) (snd p)) (combine a b).

(** The two-bit binary representation of [v], most significant bit
    first. *)
Definition bits2 (v : Z) : list Z :=
  [Z.b2z (Z.testbit v 1); Z.b2z (Z.testbit v 0)].

Definition row (half : list Z) : Z := 2 * nth 0 half 0 + nth 3 half 0.
Definition col (half : list Z) : Z := 2 * nth 1 half 0 + nth 2 half 0.

(** The table value at [(row, column)]. *)
Definition entry (table : list (list Z)) (r c : Z) : Z :=
  nth (Z.to_nat c) (nth (Z.to_nat r) table []) 0.

(** [sbox(half, table)]: the entry at [(row, column)] as two bits. *)
Definition sbox (half : list Z) (table : list (list Z)) : list Z :=
  bits2 (entry table (row half) (col half)).

(** Steps (1) to (4) of the round function, on the tables of an
    instance. *)
Definition feistel (self : SDES) (half subkey : list Z) : list Z :=
  let expanded := permute half (EP self) in
  let mixed := xor expanded subkey in
  let l4 := firstn 4 mixed in
  let r4 := skipn 4 mixed in
  let sOut := sbox l4 (S0 self) ++ sbox r4 (S1 self) in
  permute sOut (P4 self).

(** The two rounds with the subkeys [ka] then [kb]: round 1 swaps, round 2
    does not. *)
Definition rounds (self : SDES) (ka kb block : list Z) : list Z :=
  let ip := permute block (IP self) in
  let L0 := firstn 4 ip in
  let R0 := skipn 4 ip in
  let left := R0 in
  let right := xor L0 (feistel self R0 ka) in
  let newLeft := xor left (feistel self right kb) in
  permute (newLeft ++ right) (IP_INV self).

Definition identity_table (n : nat) : list Z := map Z.of_nat (seq 1 n).
Definition reversing_table (n : nat) : list Z := rev (identity_table n).

(** An entry is out of the range of a source of length [n]. *)
Definition out_of_range (n t : Z) : Prop := t < 1 \/ n < t.

(** An entry that Python's indexing rejects for a source of length [n]:
    [t - 1] lies outside [-n, n). *)
Definition rejected (n t : Z) : Prop := t < 1 - n \/ n < t.

End Ref.

(** The body shared by [encrypt] and [decrypt], with the subkeys of the two
    rounds as parameters. *)
Definition crypt (self : SDES) (ka kb block : list Z) : result (list Z) :=
  data <- permute self block (IP self) ;;
  let left := slice_to data 4 in
  let right := slice_from data 4 in
  let temp := right in
  f <- feistel self right ka ;;
  left <- xor_enumerate left f ;;
  let right := left in
  let left := temp in
  f <- feistel self right kb ;;
  left <- xor_enumerate left f ;;
  permute self (left ++ right) (IP_INV self).

(** The instance built from the example key. *)
Definition example_sdes : SDES :=
  Eval vm_compute in
    match init example_key with
    | OK s => s
    | Raise _ => mkSDES [] [] [] [] [] [] [] [] [] [] []
    end.

(** ** Instances as mutable objects

    The functions above receive the instance as a value. To speak about what
    calls do to an instance, the same methods are given here over a heap of
    objects: an instance is a reference, every [self.x] is a lookup in the
    object the reference points to (raising [AttributeError] when the
    attribute is not set), every [self.x = v] an update of that object, and
    [SDES(key)] allocates a fresh object before running [__init__] on it.
    Lists are values: the source never updates a list in place. *)

Module Obj.

Inductive error : Type :=
| PyExn (e : exn)
| AttributeError.

Inductive outcome (A : Type) : Type :=
| Ret (a : A)
| Exc (e : error).
Arguments Ret {A} a.
Arguments Exc {A} e.

(** The attributes that hold a list of integers, and those that hold a
    table. *)
Inductive lattr : Type := key | P10 | P8 | IP | IP_INV | EP | P4 | K1 | K2.
Inductive tattr : Type := S0 | S1.

Definition lcode (a : lattr) : nat :=
  match a with
  | key => 0 | P10 => 1 | P8 => 2 | IP => 3 | IP_INV => 4
  | EP => 5 | P4 => 6 | K1 => 7 | K2 => 8
  end%nat.

Definition tcode (a : tattr) : nat :=
  match a with S0 => 0 | S1 => 1 end%nat.

Record object : Type := mkObject {
  lists : lattr -> option (list Z);
  tables : tattr -> option (list (list Z))
}.

(** An object with no attribute set. *)
Definition blank : object :=
  {| lists := fun _ => None; tables := fun _ => None |}.

Definition set_list (o : object) (a : lattr) (v : list Z) : object :=
  {| lists := fun b => if Nat.eqb (lcode b) (lcode a) then Some v
                       else lists o b;
     tables := tables o |}.

Definition set_table (o : object) (a : tattr) (v : list (list Z)) : object :=
  {| lists := lists o;
     tables := fun b => if Nat.eqb (tcode b) (tcode a) then Some v
                        else tables o b |}.

Definition ref : Type := nat.

Record heap : Type := mkHeap {
  next : ref;
  objs : ref -> option object
}.

Definition empty : heap := {| next := 0%nat; objs := fun _ => None |}.

(** The heap with the object at [r] replaced. *)
Definition upd (h : heap) (r : ref) (o : object) : heap :=
  {| next := next h;
     objs := fun r' => if Nat.eqb r' r then Some o else objs h r' |}.

(** Computations that read and write the heap and may raise. *)
Definition M (A : Type) : Type := heap -> outcome A * heap.

Definition ret {A : Type} (a : A) : M A := fun h => (Ret a, h).

Definition bind {A B : Type} (m : M A) (k : A -> M B) : M B :=
  fun h =>
    match m h with
    | (Ret a, h') => k a h'
    | (Exc e, h') => (Exc e, h')
    end.

Definition of_result {A : Type} (m : result A) : outcome A :=
  match m with
  | OK a => Ret a
  | Raise e => Exc (PyExn e)
  end.

(** A computation on values only. *)
Definition lift {A : Type} (m : result A) : M A := fun h => (of_result m, h).

Notation "x <~ m ;; k" := (bind m (fun x => k))
  (at level 61, m at next level, right associativity).

(** A fresh object, with no attribute set. *)
Definition alloc : M ref :=
  fun h => (Ret (next h),
            {| next := S (next h);
               objs := fun r => if Nat.eqb r (next h) then Some blank
                                else objs h r |}).

(** [self.a], for an attribute holding a list. *)
Definition getattr (self : ref) (a : lattr) : M (list Z) :=
  fun h =>
    match objs h self with
    | Some o =>
        match lists o a with
        | Some v => (Ret v, h)
        | None => (Exc AttributeError, h)
        end
    | None => (Exc AttributeError, h)
    end.

(** [self.a], for an attribute holding a table. *)
Definition gettable (self : ref) (a : tattr) : M (list (list Z)) :=
  fun h =>
    match objs h self with
    | Some o =>
        match tables o a with
        | Some v => (Ret v, h)
        | None => (Exc AttributeError, h)
        end
    | None => (Exc AttributeError, h)
    end.

(** [self.a = v] *)
Definition setattr (self : ref) (a : lattr) (v : list Z) : M unit :=
  fun h =>
    match objs h self with
    | Some o => (Ret tt, upd h self (set_list o a v))
    | None => (Exc AttributeError, h)
    end.

Definition settable (self : ref) (a : tattr) (v : list (list Z)) : M unit :=
  fun h =>
    match objs h self with
    | Some o => (Ret tt, upd h self (set_table o a v))
    | None => (Exc AttributeError, h)
    end.

Definition permute (self : ref) (sequence table : list Z) : M (list Z) :=
  lift (comprehension (fun i => index sequence (i - 1)) table).

Definition left_shift (self : ref) (half : list Z) (shifts : Z)
  : M (list Z) :=
  ret (slice_from half shifts ++ slice_to half shifts).

Definition generate_keys (self : ref) : M (list Z * list Z) :=
  k <~ getattr self key ;;
  p10 <~ getattr self P10 ;;
  k <~ permute self k p10 ;;
  let left := slice_to k 5 in
  let right := slice_from k 5 in
  left <~ left_shift self left 1 ;;
  right <~ left_shift self right 1 ;;
  p8 <~ getattr self P8 ;;
  k1 <~ permute self (left ++ right) p8 ;;
  left <~ left_shift self left 2 ;;
  right <~ left_shift self right 2 ;;
  p8 <~ getattr self P8 ;;
  k2 <~ permute self (left ++ right) p8 ;;
  ret (k1, k2).

Definition sbox (self : ref) (half : list Z) (sbox : list (list Z))
  : M (list Z) :=
  lift (h0 <- index half 0 ;;
        h3 <- index half 3 ;;
        let row := Z.shiftl h0 1 + h3 in
        h1 <- index half 1 ;;
        h2 <- index half 2 ;;
        let col := Z.shiftl h1 1 + h2 in
        r <- index sbox row ;;
        value <- index r col ;;
        comprehension int_of_char (format_02b value)).

Definition feistel (self : ref) (half subkey : list Z) : M (list Z) :=
  ep <~ getattr self EP ;;
  expanded <~ permute self half ep ;;
  xor_result <~ lift (comprehension
                        (fun i => e <- index expanded i ;;
                                  k <- index subkey i ;;
                                  OK (Z.lxor e k))
                        (range 8)) ;;
  let left := slice_to xor_result 4 in
  let right := slice_from xor_result 4 in
  s0 <~ gettable self S0 ;;
  o0 <~ sbox self left s0 ;;
  s1 <~ gettable self S1 ;;
  o1 <~ sbox self right s1 ;;
  let sbox_output := o0 ++ o1 in
  p4 <~ getattr self P4 ;;
  permute self sbox_output p4.

Definition encrypt (self : ref) (plaintext : list Z) : M (list Z) :=
  ip <~ getattr self IP ;;
  data <~ permute self plaintext ip ;;
  let left := slice_to data 4 in
  let right := slice_from data 4 in
  let temp := right in
  k1 <~ getattr self K1 ;;
  f <~ feistel self right k1 ;;
  left <~ lift (xor_enumerate left f) ;;
  let right := left in
  let left := temp in
  k2 <~ getattr self K2 ;;
  f <~ feistel self right k2 ;;
  left <~ lift (xor_enumerate left f) ;;
  inv <~ getattr self IP_INV ;;
  permute self (left ++ right) inv.

Definition decrypt (self : ref) (ciphertext : list Z) : M (list Z) :=
  ip <~ getattr self IP ;;
  data <~ permute self ciphertext ip ;;
  let left := slice_to data 4 in
  let right := slice_from data 4 in
  let temp := right in
  k2 <~ getattr self K2 ;;
  f <~ feistel self right k2 ;;
  left <~ lift (xor_enumerate left f) ;;
  let right := left in
  let left := temp in
  k1 <~ getattr self K1 ;;
  f <~ feistel self right k1 ;;
  left <~ lift (xor_enumerate left f) ;;
  inv <~ getattr self IP_INV ;;
  permute self (left ++ right) inv.

(** [__init__(self, key)] *)
Definition init (self : ref) (k : list Z) : M unit :=
  _ <~ setattr self key k ;;
  _ <~ setattr self P10 [3; 5; 2; 7; 4; 10; 1; 9; 8; 6] ;;
  _ <~ setattr self P8 [6; 3; 7; 4; 8; 5; 10; 9] ;;
  _ <~ setattr self IP [2; 6; 3; 1; 4; 8; 5; 7] ;;
  _ <~ setattr self IP_INV [4; 1; 3; 5; 7; 2; 8; 6] ;;
  _ <~ setattr self EP [4; 1; 2; 3; 2; 3; 4; 1] ;;
  _ <~ setattr self P4 [2; 4; 3; 1] ;;
  _ <~ settable self S0
         [[1; 0; 3; 2]; [3; 2; 1; 0]; [0; 2; 1; 3]; [3; 1; 3; 2]] ;;
  _ <~ settable self S1
         [[0; 1; 2; 3]; [2; 0; 1; 3]; [3; 0; 1; 0]; [2; 1; 0; 3]] ;;
  ks <~ generate_keys self ;;
  _ <~ setattr self K1 (fst ks) ;;
  setattr self K2 (snd ks).

(** [SDES(key)]: a new object, initialised. *)
Definition SDES (k : list Z) : M ref :=
  self <~ alloc ;;
  _ <~ init self k ;;
  ret self.

(** A caller's call on an instance. *)
Inductive call : Type :=
| Encrypt (self : ref) (block : list Z)
| Decrypt (self : ref) (block : list Z).

Definition target (c : call) : ref :=
  match c with Encrypt r _ | Decrypt r _ => r end.

Definition do_call (c : call) : M (list Z) :=
  match c with
  | Encrypt r b => encrypt r b
  | Decrypt r b => decrypt r b
  end.

(** A caller that makes the calls one after the other on the same heap and
    keeps what each one returned or raised. *)
Fixpoint run (cs : list call) (h : heap)
  : list (outcome (list Z)) * heap :=
  match cs with
  | [] => ([], h)
  | c :: cs' =>
      let (o, h1) := do_call c h in
      let (os, h2) := run cs' h1 in
      (o :: os, h2)
  end.

(** A computation that leaves every heap as it found it. *)
Definition readonly {A : Type} (m : M A) : Prop :=
  forall h, snd (m h) = h.

End Obj.

(** The object [o] holds the attributes of the instance value [s]. *)
Definition models (o : Obj.object) (s : SDES) : Prop :=
  Obj.lists o Obj.key = Some (key s) /\
  Obj.lists o Obj.P10 = Some (P10 s) /\
  Obj.lists o Obj.P8 = Some (P8 s) /\
  Obj.lists o Obj.IP = Some (IP s) /\
  Obj.lists o Obj.IP_INV = Some (IP_INV s) /\
  Obj.lists o Obj.EP = Some (EP s) /\
  Obj.lists o Obj.P4 = Some (P4 s) /\
  Obj.tables o Obj.S0 = Some (S0 s) /\
  Obj.tables o Obj.S1 = Some (S1 s) /\
  Obj.lists o Obj.K1 = Some (K1 s) /\
  Obj.lists o Obj.K2 = Some (K2 s).

(** What the call [c] returns or raises according to the functions on the
    instance value [s]. *)
Definition answer (s : SDES) (c : Obj.call) : Obj.outcome (list Z) :=
  match c with
  | Obj.Encrypt _ b => Obj.of_result (encrypt s b)
  | Obj.Decrypt _ b => Obj.of_result (decrypt s b)
  end.

(** The heap after [SDES(example_key)] was evaluated twice. *)
Definition example_heap1 : Obj.heap := snd (Obj.SDES example_key Obj.empty).
Definition example_heap2 : Obj.heap := snd (Obj.SDES example_key example_heap1).

(** ** Vocabulary for the properties beyond the specification *)

(** The complement of a bit sequence: every bit flipped. *)
Definition complement (l : list Z) : list Z := map (fun b => 1 - b) l.

(** The number written by a sequence of binary digits, most significant
    digit first. *)
Definition bits_value (l : list Z) : Z :=
  fold_left (fun acc b => 2 * acc + b) l 0.

(** The elements of [k] at the given 0-based positions. *)
Definition select (k : list Z) (positions : list nat) : list Z :=
  map (fun i => nth i k 0) positions.

(** ** Proof tactics *)

(** Expose the elements of a list whose length is a known numeral. *)
Ltac expose_length H :=
  repeat match type of H with
         | List.length ?l = _ =>
             destruct l; cbn [List.length] in H;
             [ try discriminate H | try (apply eq_add_S in H) ]
         end;
  try discriminate H; try clear H.

Ltac split_Forall H :=
  repeat match type of H with
         | Forall _ (_ :: _) =>
             let Hx := fresh "Hb" in
             apply Forall_cons_iff in H; destruct H as [Hx H]
         end;
  try clear H.

Ltac expose_bits H :=
  let Hl := fresh "Hl" in
  let Hf := fresh "Hf" in
  destruct H as [Hl Hf]; expose_length Hl; split_Forall Hf.

(** Evaluate a list lookup whose list has a known shape and whose index is a
    numeral; the elements are never inspected. *)
Ltac run_index :=
  match goal with
  | |- context [index ?l ?i] =>
      let r := eval vm_compute in (index l i) in
      change (index l i) with r; cbn beta iota delta [bind]
  | |- context [nth (Z.to_nat ?i) ?l ?d] =>
      let r := eval vm_compute in (nth (Z.to_nat i) l d) in
      change (nth (Z.to_nat i) l d) with r
  end.

(** A closed list of the given length all of whose elements are bits. *)
Ltac closed_bits :=
  split; [reflexivity |];
  repeat (apply Forall_cons; [vm_compute; auto |]); apply Forall_nil.

(** Every entry of a closed table lies in the stated range. *)
Ltac closed_range :=
  repeat (apply Forall_cons; [lia |]); apply Forall_nil.

(** ** Python indexing and comprehensions *)

Lemma index_nonneg {A : Type} (l : list A) (i : Z) (d : A) :
  0 <= i < len l -> index l i = OK (nth (Z.to_nat i) l d).
Proof.
  intros H. unfold index.
  destruct (Z.ltb_spec i 0) as [Hn | _]; [lia |].
  destruct (Z.ltb_spec i 0) as [Hn | _]; [lia |].
  destruct (Z.leb_spec (len l) i) as [Hn | _]; [lia |]. cbn.
  destruct (nth_error l (Z.to_nat i)) eqn:E.
  - now rewrite (nth_error_nth _ _ _ E).
  - apply nth_error_None in E. unfold len in *. lia.
Qed.

Lemma index_negative {A : Type} (l : list A) (i : Z) (d : A) :
  - len l <= i < 0 -> index l i = OK (nth (Z.to_nat (i + len l)) l d).
Proof.
  intros H. unfold index.
  destruct (Z.ltb_spec i 0) as [_ | Hn]; [| lia].
  destruct (Z.ltb_spec (i + len l) 0) as [Hn | _]; [lia |].
  destruct (Z.leb_spec (len l) (i + len l)) as [Hn | _]; [lia |]. cbn.
  destruct (nth_error l (Z.to_nat (i + len l))) eqn:E.
  - now rewrite (nth_error_nth _ _ _ E).
  - apply nth_error_None in E. unfold len in *. lia.
Qed.

Lemma index_outside {A : Type} (l : list A) (i : Z) :
  i < - len l \/ len l <= i -> index l i = Raise IndexError.
Proof.
  intros H. unfold index.
  destruct (Z.ltb_spec i 0).
  - destruct (Z.ltb_spec (i + len l) 0); [reflexivity |].
    destruct (Z.leb_spec (len l) (i + len l)); [reflexivity | lia].
  - destruct (Z.ltb_spec i 0); [lia |].
    destruct (Z.leb_spec (len l) i); [reflexivity | lia].
Qed.

Lemma index_cases {A : Type} (l : list A) (i : Z) :
  (exists a, index l i = OK a /\ - len l <= i < len l) \/
  (index l i = Raise IndexError /\ (i < - len l \/ len l <= i)).
Proof.
  destruct (Z_lt_ge_dec i (- len l)) as [H | H].
  - right. split; [apply index_outside |]; lia.
  - destruct (Z_le_gt_dec (len l) i) as [H' | H'].
    + right. split; [apply index_outside |]; lia.
    + left. destruct l as [| d l'].
      * unfold len in *. cbn in *. lia.
      * destruct (Z_lt_ge_dec i 0).
        -- eexists. split; [apply (index_negative _ _ d) |]; lia.
        -- eexists. split; [apply (index_nonneg _ _ d) |]; lia.
Qed.

Lemma comprehension_map {A B : Type} (f : A -> result B) (g : A -> B)
      (l : list A) :
  Forall (fun x => f x = OK (g x)) l -> comprehension f l = OK (map g l).
Proof.
  induction 1 as [| x xs Hx _ IH]; cbn; [reflexivity |].
  now rewrite Hx, IH.
Qed.

Lemma comprehension_raises {A B : Type} (f : A -> result B) (l : list A) :
  Exists (fun x => exists e, f x = Raise e) l ->
  exists e, comprehension f l = Raise e.
Proof.
  induction 1 as [x xs [e He] | x xs _ [e IH]]; cbn.
  - rewrite He. now exists e.
  - destruct (f x) as [y | e']; cbn; [| now exists e'].
    rewrite IH. now exists e.
Qed.

Lemma comprehension_raised {A B : Type} (f : A -> result B) (l : list A)
      (e : exn) :
  comprehension f l = Raise e -> Exists (fun x => f x = Raise e) l.
Proof.
  induction l as [| x xs IH]; cbn; [discriminate |].
  destruct (f x) as [y | e'] eqn:E; cbn.
  - destruct (comprehension f xs) as [ys | e'']; cbn; [discriminate |].
    intros [= ->]. right. now apply IH.
  - intros [= ->]. now left.
Qed.

(** ** The permutation engine *)

Lemma permute_ref (self : SDES) (source table : list Z) :
  Forall (fun t => 1 <= t <= len source) table ->
  permute self source table = OK (Ref.permute source table).
Proof.
  intros H. unfold permute, Ref.permute.
  apply comprehension_map.
  eapply Forall_impl; [| exact H]. cbn. intros t Ht.
  apply index_nonneg. lia.
Qed.

Lemma ref_permute_identity (source : list Z) :
  Ref.permute source (Ref.identity_table (List.length source)) = source.
Proof.
  unfold Ref.permute, Ref.identity_table. rewrite map_map.
  induction source as [| x xs IH]; cbn [List.length seq map]; [reflexivity |].
  f_equal.
  rewrite <- seq_shift, map_map.
  transitivity (map (fun k => nth (Z.to_nat (Z.of_nat k - 1)) xs 0)
                    (seq 1 (List.length xs))); [| exact IH].
  apply map_ext_in. intros k Hk. apply in_seq in Hk.
  replace (Z.to_nat (Z.of_nat (S k) - 1)) with (S (Z.to_nat (Z.of_nat k - 1)))
    by lia.
  reflexivity.
Qed.

Lemma ref_permute_reversing (source : list Z) :
  Ref.permute source (Ref.reversing_table (List.length source)) = rev source.
Proof.
  unfold Ref.reversing_table, Ref.permute. rewrite map_rev.
  f_equal. apply ref_permute_identity.
Qed.

Lemma identity_table_range (n : nat) :
  Forall (fun t => 1 <= t <= Z.of_nat n) (Ref.identity_table n).
Proof.
  unfold Ref.identity_table. apply Forall_forall. intros t Ht.
  apply in_map_iff in Ht as [k [<- Hk]]. apply in_seq in Hk. lia.
Qed.

(** C6: when every table entry lies in [1, n], [permute] returns a sequence
    as long as the table whose [j]-th element is [source[table[j] - 1]]; the
    identity table [1..n] gives back the source and the reversing table
    [n..1] gives the source reversed. *)
Theorem permute_lookup (self : SDES) (source table : list Z) :
  Forall (fun t => 1 <= t <= len source) table ->
  (exists out,
      permute self source table = OK out /\
      List.length out = List.length table /\
      forall j t, nth_error table j = Some t ->
        exists b, nth_error out j = Some b /\
                  index source (t - 1) = OK b /\
                  nth_error source (Z.to_nat (t - 1)) = Some b) /\
  permute self source (Ref.identity_table (List.length source)) = OK source /\
  permute self source (Ref.reversing_table (List.length source))
    = OK (rev source).
Proof.
  intros H. split; [| split].
  - exists (Ref.permute source table). split; [now apply permute_ref |].
    split; [apply length_map |].
    intros j t Hj. exists (nth (Z.to_nat (t - 1)) source 0).
    assert (Ht : 1 <= t <= len source).
    { rewrite Forall_forall in H. apply H. eapply nth_error_In, Hj. }
    split; [| split].
    + unfold Ref.permute. rewrite nth_error_map, Hj. reflexivity.
    + apply index_nonneg. lia.
    + apply nth_error_nth'. unfold len in Ht. lia.
  - rewrite permute_ref; [now rewrite ref_permute_identity |].
    apply identity_table_range.
  - rewrite permute_ref; [now rewrite ref_permute_reversing |].
    unfold Ref.reversing_table. apply Forall_rev, identity_table_range.
Qed.

Lemma permute_lookup_witness :
  exists out, permute example_sdes [1; 0; 0; 1; 1] [5; 1; 1; 3] = OK out /\
              List.length out = 4%nat.
Proof.
  destruct (permute_lookup example_sdes [1; 0; 0; 1; 1] [5; 1; 1; 3])
    as [[out [H1 [H2 _]]] _].
  - repeat constructor; vm_compute; discriminate.
  - exists out. split; assumption.
Defined.

(** C7, as stated, fails: a table entry of 0 lies outside [1, n], yet
    [permute] returns the last element of the source instead of raising. *)
Lemma permute_zero_entry_returns :
  Exists (Ref.out_of_range (len [0; 0; 1])) [0] /\
  permute example_sdes [0; 0; 1] [0] = OK [1] /\
  ~ (exists e, permute example_sdes [0; 0; 1] [0] = Raise e).
Proof.
  split; [| split].
  - left. left. reflexivity.
  - reflexivity.
  - intros [e He]. discriminate He.
Qed.

(** C7, amended: [permute] raises [IndexError] as soon as some entry [t] has
    [t > n] or [t < 1 - n]; a table whose entries all lie in [1 - n, n] does
    not raise, the entries below 1 being read from the end of the source. *)
Theorem permute_rejects (self : SDES) (source table : list Z) :
  (Exists (Ref.rejected (len source)) table ->
   permute self source table = Raise IndexError) /\
  (Forall (fun t => 1 - len source <= t <= len source) table ->
   permute self source table
   = OK (map (fun t => nth (Z.to_nat (if t <? 1 then t - 1 + len source
                                      else t - 1)) source 0) table)).
Proof.
  split.
  - intros H.
    destruct (comprehension_raises (fun i => index source (i - 1)) table)
      as [e He].
    + eapply Exists_impl; [| exact H]. cbn. intros t Ht.
      exists IndexError. apply index_outside. unfold Ref.rejected in Ht. lia.
    + unfold permute. rewrite He. f_equal.
      apply comprehension_raised in He. apply Exists_exists in He.
      destruct He as [t [_ Ht]].
      destruct (index_cases source (t - 1)) as [[a [Ha _]] | [Hr _]];
        congruence.
  - intros H. unfold permute. apply comprehension_map.
    eapply Forall_impl; [| exact H]. cbv beta. intros t Ht.
    destruct (Z.ltb_spec t 1).
    + apply index_negative. unfold len in *. lia.
    + apply index_nonneg. unfold len in *. lia.
Qed.

Lemma permute_rejects_witness :
  permute example_sdes [0; 0; 1] [1; 4] = Raise IndexError /\
  permute example_sdes [0; 0; 1] [1; -3] = Raise IndexError /\
  permute example_sdes [0; 0; 1] [0; -2; 3] = OK [1; 0; 1].
Proof.
  split; [| split].
  - apply (proj1 (permute_rejects example_sdes [0; 0; 1] [1; 4])).
    right. left. right. vm_compute. reflexivity.
  - apply (proj1 (permute_rejects example_sdes [0; 0; 1] [1; -3])).
    right. left. left. vm_compute. reflexivity.
  - apply (proj2 (permute_rejects example_sdes [0; 0; 1] [0; -2; 3])).
    repeat constructor; vm_compute; discriminate.
Defined.

(** ** Instances

    What [__init__] leaves in the instance: the key, the fixed tables and the
    two subkeys returned by [generate_keys]. *)

Lemma init_instance (k : list Z) (s : SDES) :
  init k = OK s ->
  exists k1 k2,
    s = {| key := k;
           P10 := [3; 5; 2; 7; 4; 10; 1; 9; 8; 6];
           P8 := [6; 3; 7; 4; 8; 5; 10; 9];
           IP := [2; 6; 3; 1; 4; 8; 5; 7];
           IP_INV := [4; 1; 3; 5; 7; 2; 8; 6];
           EP := [4; 1; 2; 3; 2; 3; 4; 1];
           P4 := [2; 4; 3; 1];
           S0 := [[1; 0; 3; 2]; [3; 2; 1; 0]; [0; 2; 1; 3]; [3; 1; 3; 2]];
           S1 := [[0; 1; 2; 3]; [2; 0; 1; 3]; [3; 0; 1; 0]; [2; 1; 0; 3]];
           K1 := k1;
           K2 := k2 |} /\
    generate_keys s = OK (k1, k2).
Proof.
  unfold init.
  match goal with
  | |- context [generate_keys ?pre] => destruct (generate_keys pre) as [[k1 k2] |] eqn:E
  end; cbn; [| discriminate].
  intros [= <-]. exists k1, k2. split; [reflexivity | exact E].
Qed.

(** ** Bits and fixed-length sequences *)

Lemma is_bit_xor (a b : Z) : is_bit a -> is_bit b -> is_bit (Z.lxor a b).
Proof. intros [-> | ->] [-> | ->]; cbn; unfold is_bit; auto. Qed.

Lemma xor_cancel (a b : Z) : Z.lxor (Z.lxor a b) b = a.
Proof. now rewrite Z.lxor_assoc, Z.lxor_nilpotent, Z.lxor_0_r. Qed.

Lemma bits_app (n m : nat) (a b : list Z) :
  bits n a -> bits m b -> bits (n + m) (a ++ b).
Proof.
  intros [Ha Fa] [Hb Fb]. split.
  - rewrite length_app. congruence.
  - apply Forall_app. now split.
Qed.

(** ** The substitution function *)

Lemma format_bits2 (v : Z) :
  0 <= v <= 3 -> comprehension int_of_char (format_02b v) = OK (Ref.bits2 v).
Proof.
  intros H.
  assert (E : v = 0 \/ v = 1 \/ v = 2 \/ v = 3) by lia.
  destruct E as [-> | [-> | [-> | ->]]]; reflexivity.
Qed.

Lemma bits2_bits (v : Z) : bits 2 (Ref.bits2 v).
Proof.
  split; [reflexivity |].
  unfold Ref.bits2.
  apply Forall_cons; [| apply Forall_cons; [| apply Forall_nil]];
    destruct (Z.testbit v _); cbn; unfold is_bit; auto.
Qed.

Lemma bits2_value (v : Z) :
  0 <= v <= 3 ->
  v = 2 * Z.b2z (Z.testbit v 1) + Z.b2z (Z.testbit v 0).
Proof.
  intros H.
  assert (E : v = 0 \/ v = 1 \/ v = 2 \/ v = 3) by lia.
  destruct E as [-> | [-> | [-> | ->]]]; reflexivity.
Qed.

Lemma sbox_ref (self : SDES) (half : list Z) (table : list (list Z)) :
  bits 4 half -> wf_sbox table ->
  0 <= Ref.row half <= 3 /\
  0 <= Ref.col half <= 3 /\
  0 <= Ref.entry table (Ref.row half) (Ref.col half) <= 3 /\
  (exists r, index table (Ref.row half) = OK r /\
             index r (Ref.col half)
             = OK (Ref.entry table (Ref.row half) (Ref.col half))) /\
  sbox self half table = OK (Ref.sbox half table).
Proof.
  intros Hh [Hl Hrows].
  expose_bits Hh. expose_length Hl. split_Forall Hrows.
  repeat match goal with
         | H : List.length _ = 4%nat /\ _ |- _ =>
             let Hl := fresh "Hl" in
             let Hf := fresh "Hf" in
             destruct H as [Hl Hf]; expose_length Hl; split_Forall Hf
         end.
  repeat match goal with
         | H : is_bit _ |- _ => destruct H as [-> | ->]
         end;
    unfold Ref.sbox, Ref.row, Ref.col, Ref.entry, sbox; cbn [nth];
    repeat run_index;
    rewrite format_bits2 by assumption;
    (repeat split; try lia; try assumption; eexists; split; reflexivity).
Qed.

(** C5: on four bits and a 4 x 4 table of values in [0, 3], [sbox] reads the
    entry at row [2*half[0] + half[3]] and column [2*half[1] + half[2]],
    both indices lie in [0, 3] so neither lookup raises, and the result is
    the two-bit binary representation of that entry, most significant bit
    first: exactly two elements, each 0 or 1. *)
Theorem sbox_lookup (self : SDES) (half : list Z) (table : list (list Z)) :
  bits 4 half -> wf_sbox table ->
  let row := 2 * nth 0 half 0 + nth 3 half 0 in
  let col := 2 * nth 1 half 0 + nth 2 half 0 in
  0 <= row <= 3 /\ 0 <= col <= 3 /\
  exists r v b1 b0,
    index table row = OK r /\ index r col = OK v /\
    sbox self half table = OK [b1; b0] /\
    is_bit b1 /\ is_bit b0 /\ v = 2 * b1 + b0 /\ 0 <= v <= 3.
Proof.
  intros Hh Ht row col.
  destruct (sbox_ref self half table Hh Ht)
    as [Hr [Hc [Hv [[r [Hi Hj]] Hs]]]].
  change (Ref.row half) with row in *. change (Ref.col half) with col in *.
  split; [exact Hr |]. split; [exact Hc |].
  exists r, (Ref.entry table row col).
  exists (Z.b2z (Z.testbit (Ref.entry table row col) 1)).
  exists (Z.b2z (Z.testbit (Ref.entry table row col) 0)).
  destruct (bits2_bits (Ref.entry table row col)) as [_ Hb].
  unfold Ref.bits2 in Hb. split_Forall Hb.
  repeat split; try assumption; try lia.
  now apply bits2_value.
Qed.

Lemma sbox_lookup_witness :
  sbox example_sdes [1; 0; 1; 1] (S0 example_sdes) = OK [0; 1].
Proof.
  destruct (sbox_lookup example_sdes [1; 0; 1; 1] (S0 example_sdes))
    as [_ [_ [r [v [b1 [b0 [Hi [Hj [Hs _]]]]]]]]].
  - closed_bits.
  - split; [reflexivity |].
    repeat (apply Forall_cons; [split; [reflexivity | closed_range] |]).
    apply Forall_nil.
  - rewrite Hs. vm_compute in Hi. injection Hi as <-.
    vm_compute in Hj. injection Hj as <-.
    vm_compute in Hs. exact (eq_sym Hs).
Defined.

(** ** The key schedule *)

(** C2: for a key of ten elements the constructor succeeds, [K1] is [P8]
    applied to the two halves of [P10(key)] each rotated left by one, [K2]
    is [P8] applied to those rotated halves rotated left by two more, which
    is a rotation of the original halves by three; on the example key this
    differs from rotating the original halves by two. *)
Theorem generate_keys_schedule (k : list Z) :
  List.length k = 10%nat ->
  exists s,
    init k = OK s /\
    generate_keys s = OK (K1 s, K2 s) /\
    let p := Ref.permute k (P10 s) in
    let left0 := firstn 5 p in
    let right0 := skipn 5 p in
    let left1 := Ref.rotate left0 1 in
    let right1 := Ref.rotate right0 1 in
    let left2 := Ref.rotate left1 2 in
    let right2 := Ref.rotate right1 2 in
    permute s k (P10 s) = OK p /\
    left_shift s left0 1 = left1 /\ left_shift s right0 1 = right1 /\
    left_shift s left1 2 = left2 /\ left_shift s right1 2 = right2 /\
    permute s (left1 ++ right1) (P8 s) = OK (K1 s) /\
    permute s (left2 ++ right2) (P8 s) = OK (K2 s) /\
    left2 = Ref.rotate left0 3 /\ right2 = Ref.rotate right0 3 /\
    (k = example_key ->
     K2 s <> Ref.permute (Ref.rotate left0 2 ++ Ref.rotate right0 2) (P8 s)).
Proof.
  intros Hl. expose_length Hl.
  eexists. split; [reflexivity |].
  split; [reflexivity |].
  cbv zeta. repeat (split; [reflexivity |]).
  intros [= -> -> -> -> -> -> -> -> -> ->]. vm_compute. discriminate.
Qed.

Lemma generate_keys_schedule_witness :
  exists s, init example_key = OK s /\
            K1 s = [1; 0; 1; 0; 0; 1; 0; 0] /\
            K2 s = [0; 1; 0; 0; 0; 0; 1; 1].
Proof.
  destruct (generate_keys_schedule example_key) as [s [Hi [_ H]]].
  - reflexivity.
  - cbv zeta in H. exists s.
    destruct H as [_ [_ [_ [_ [_ [H1 [H2 _]]]]]]].
    vm_compute in Hi. injection Hi as <-. split; [reflexivity |].
    split; reflexivity.
Defined.

(** ** The round function *)

Lemma ref_xor_bits (n : nat) (a b : list Z) :
  bits n a -> bits n b -> bits n (Ref.xor a b).
Proof.
  intros [La Fa] [Lb Fb]. split.
  - unfold Ref.xor. rewrite length_map, length_combine. lia.
  - clear La Lb. revert b Fb.
    induction Fa as [| x xs Hx _ IH]; intros b Fb; [constructor |].
    destruct Fb as [| y ys Hy Fy]; [constructor |].
    cbn. constructor; [now apply is_bit_xor | now apply IH].
Qed.

Lemma ref_xor_length (a b : list Z) :
  List.length a = List.length b ->
  List.length (Ref.xor a b) = List.length a.
Proof.
  intros H. unfold Ref.xor. rewrite length_map, length_combine. lia.
Qed.

Lemma ref_xor_cancel (a b : list Z) :
  List.length a = List.length b -> Ref.xor (Ref.xor a b) b = a.
Proof.
  revert b. induction a as [| x xs IH]; intros [| y ys] H;
    try discriminate H; [reflexivity |].
  unfold Ref.xor in *. cbn. rewrite xor_cancel. f_equal.
  apply IH. now injection H.
Qed.

Lemma Forall_split_at {A : Type} (P : A -> Prop) (n : nat) (l : list A) :
  Forall P l -> Forall P (firstn n l) /\ Forall P (skipn n l).
Proof.
  intros H. rewrite <- (firstn_skipn n l) in H. now apply Forall_app in H.
Qed.

Lemma bits_firstn (n m : nat) (l : list Z) :
  (n <= m)%nat -> bits m l -> bits n (firstn n l).
Proof.
  intros Hn [Hl Hf]. split.
  - rewrite length_firstn. lia.
  - now apply Forall_split_at.
Qed.

Lemma bits_skipn (n m : nat) (l : list Z) :
  bits m l -> bits (m - n) (skipn n l).
Proof.
  intros [Hl Hf]. split.
  - rewrite length_skipn. lia.
  - now apply Forall_split_at.
Qed.

Lemma ref_permute_bits (source table : list Z) :
  Forall (fun t => 1 <= t <= len source) table ->
  Forall is_bit source ->
  bits (List.length table) (Ref.permute source table).
Proof.
  intros Ht Hs. split; [apply length_map |].
  unfold Ref.permute. apply Forall_map.
  eapply Forall_impl; [| exact Ht]. cbv beta. intros t H.
  rewrite Forall_forall in Hs. apply Hs, nth_In. unfold len in H. lia.
Qed.

(** The comprehension over [range(8)] in [feistel]. *)
Lemma mix_ref (e k : list Z) :
  List.length e = 8%nat -> List.length k = 8%nat ->
  comprehension (fun i => a <- index e i ;; b <- index k i ;; OK (Z.lxor a b))
                (range 8)
  = OK (Ref.xor e k).
Proof. intros He Hk. expose_length He. expose_length Hk. reflexivity. Qed.

(** The comprehension over [enumerate] in the rounds. *)
Lemma xor_enumerate_ref (left f : list Z) :
  List.length left = 4%nat -> List.length f = 4%nat ->
  xor_enumerate left f = OK (Ref.xor left f).
Proof. intros Hl Hf. expose_length Hl. expose_length Hf. reflexivity. Qed.

Lemma slices_of_8 (l : list Z) :
  List.length l = 8%nat ->
  slice_to l 4 = firstn 4 l /\ slice_from l 4 = skipn 4 l.
Proof. intros H. unfold slice_to, slice_from, len. now rewrite H. Qed.

Lemma split_4_4 (l r : list Z) :
  List.length l = 4%nat ->
  firstn 4 (l ++ r) = l /\ skipn 4 (l ++ r) = r.
Proof. intros H. expose_length H. split; reflexivity. Qed.

(** The tables [IP] and [IP_INV] undo each other. *)
Lemma IP_then_IP_INV (a b c d e f g h : Z) :
  Ref.permute (Ref.permute [a; b; c; d; e; f; g; h] [2; 6; 3; 1; 4; 8; 5; 7])
              [4; 1; 3; 5; 7; 2; 8; 6]
  = [a; b; c; d; e; f; g; h].
Proof. reflexivity. Qed.

Lemma IP_INV_then_IP (a b c d e f g h : Z) :
  Ref.permute (Ref.permute [a; b; c; d; e; f; g; h] [4; 1; 3; 5; 7; 2; 8; 6])
              [2; 6; 3; 1; 4; 8; 5; 7]
  = [a; b; c; d; e; f; g; h].
Proof. reflexivity. Qed.

Lemma encrypt_crypt (s : SDES) (P : list Z) :
  encrypt s P = crypt s (K1 s) (K2 s) P.
Proof. reflexivity. Qed.

Lemma decrypt_crypt (s : SDES) (C : list Z) :
  decrypt s C = crypt s (K2 s) (K1 s) C.
Proof. reflexivity. Qed.

Lemma init_total (k : list Z) :
  List.length k = 10%nat -> exists s, init k = OK s.
Proof. intros Hl. expose_length Hl. eexists. reflexivity. Qed.

(** Facts about one constructed instance. *)
Section Instance.

Variables (k : list Z) (s : SDES).
Hypothesis Hinit : init k = OK s.

Lemma instance_tables :
  IP s = [2; 6; 3; 1; 4; 8; 5; 7] /\
  IP_INV s = [4; 1; 3; 5; 7; 2; 8; 6] /\
  EP s = [4; 1; 2; 3; 2; 3; 4; 1] /\
  P4 s = [2; 4; 3; 1] /\
  S0 s = [[1; 0; 3; 2]; [3; 2; 1; 0]; [0; 2; 1; 3]; [3; 1; 3; 2]] /\
  S1 s = [[0; 1; 2; 3]; [2; 0; 1; 3]; [3; 0; 1; 0]; [2; 1; 0; 3]].
Proof.
  destruct (init_instance k s Hinit) as [k1 [k2 [-> _]]].
  repeat split.
Qed.

Lemma wf_sbox_S0 : wf_sbox (S0 s).
Proof.
  destruct instance_tables as [_ [_ [_ [_ [-> _]]]]].
  split; [reflexivity |].
  repeat (apply Forall_cons; [split; [reflexivity | closed_range] |]).
  apply Forall_nil.
Qed.

Lemma wf_sbox_S1 : wf_sbox (S1 s).
Proof.
  destruct instance_tables as [_ [_ [_ [_ [_ ->]]]]].
  split; [reflexivity |].
  repeat (apply Forall_cons; [split; [reflexivity | closed_range] |]).
  apply Forall_nil.
Qed.

Lemma expanded_bits (half : list Z) :
  bits 4 half ->
  permute s half (EP s) = OK (Ref.permute half (EP s)) /\
  bits 8 (Ref.permute half (EP s)).
Proof.
  intros [Hl Hf].
  destruct instance_tables as [_ [_ [-> _]]].
  assert (R : Forall (fun t => 1 <= t <= len half)
                     [4; 1; 2; 3; 2; 3; 4; 1]).
  { unfold len. rewrite Hl. closed_range. }
  split; [now apply permute_ref | now apply (ref_permute_bits half _ R)].
Qed.

Lemma P4_range : Forall (fun t => 1 <= t <= 4) (P4 s) /\
                 List.length (P4 s) = 4%nat.
Proof.
  destruct instance_tables as [_ [_ [_ [-> _]]]].
  split; [closed_range | reflexivity].
Qed.

(** What [feistel] computes up to the two substitutions. *)
Lemma feistel_unfold (half subkey : list Z) :
  bits 4 half -> bits 8 subkey ->
  let mixed := Ref.xor (Ref.permute half (EP s)) subkey in
  bits 8 mixed /\
  sbox s (firstn 4 mixed) (S0 s) = OK (Ref.sbox (firstn 4 mixed) (S0 s)) /\
  sbox s (skipn 4 mixed) (S1 s) = OK (Ref.sbox (skipn 4 mixed) (S1 s)) /\
  feistel s half subkey
  = permute s (Ref.sbox (firstn 4 mixed) (S0 s)
               ++ Ref.sbox (skipn 4 mixed) (S1 s)) (P4 s).
Proof.
  intros Hh Hk mixed.
  destruct (expanded_bits half Hh) as [He Be].
  pose proof (ref_xor_bits 8 _ _ Be Hk) as Bm. fold mixed in Bm.
  pose proof (bits_firstn 4 8 _ ltac:(lia) Bm) as Bl.
  pose proof (bits_skipn 4 8 _ Bm) as Br. cbn [Nat.sub] in Br.
  destruct (sbox_ref s _ _ Bl wf_sbox_S0) as [_ [_ [_ [_ E0]]]].
  destruct (sbox_ref s _ _ Br wf_sbox_S1) as [_ [_ [_ [_ E1]]]].
  repeat split; try assumption; try apply Bm.
  unfold feistel. rewrite He. cbn [bind].
  rewrite mix_ref by (apply Be || apply Hk). cbn [bind]. fold mixed.
  destruct (slices_of_8 _ (proj1 Bm)) as [-> ->].
  rewrite E0. cbn [bind]. rewrite E1. reflexivity.
Qed.

Lemma feistel_ref (half subkey : list Z) :
  bits 4 half -> bits 8 subkey ->
  feistel s half subkey = OK (Ref.feistel s half subkey) /\
  bits 4 (Ref.feistel s half subkey).
Proof.
  intros Hh Hk.
  destruct (feistel_unfold half subkey Hh Hk) as [_ [_ [_ Hf]]].
  destruct P4_range as [R L4].
  set (mixed := Ref.xor (Ref.permute half (EP s)) subkey) in *.
  assert (Bo : bits 4 (Ref.sbox (firstn 4 mixed) (S0 s)
                       ++ Ref.sbox (skipn 4 mixed) (S1 s))).
  { apply (bits_app 2 2); apply bits2_bits. }
  assert (R' : Forall (fun t => 1 <= t <= len (Ref.sbox (firstn 4 mixed) (S0 s)
                       ++ Ref.sbox (skipn 4 mixed) (S1 s))) (P4 s)).
  { unfold len. rewrite (proj1 Bo). exact R. }
  split.
  - rewrite Hf. now apply permute_ref.
  - pose proof (ref_permute_bits _ (P4 s) R' (proj2 Bo)) as B.
    now rewrite L4 in B.
Qed.

Lemma ref_feistel_length (half subkey : list Z) :
  List.length (Ref.feistel s half subkey) = 4%nat.
Proof.
  unfold Ref.feistel, Ref.permute. cbv zeta. rewrite length_map.
  apply P4_range.
Qed.

End Instance.

(** C4: on four bits and an eight-bit subkey, [feistel] returns
    [permute(sbox(l4, S0) ++ sbox(r4, S1), P4)], where [l4] and [r4] are the
    first and last four bits of [permute(half, EP)] xored pointwise with the
    subkey; and the table [EP] is [[4,1,2,3,2,3,4,1]], in which each of the
    source positions 1 to 4 occurs exactly twice. *)
Theorem feistel_steps (k : list Z) (s : SDES) (half subkey : list Z) :
  init k = OK s -> bits 4 half -> bits 8 subkey ->
  (exists expanded o0 o1 out,
      permute s half (EP s) = OK expanded /\
      let mixed := Ref.xor expanded subkey in
      List.length mixed = 8%nat /\
      sbox s (firstn 4 mixed) (S0 s) = OK o0 /\
      sbox s (skipn 4 mixed) (S1 s) = OK o1 /\
      permute s (o0 ++ o1) (P4 s) = OK out /\
      feistel s half subkey = OK out /\
      bits 4 out) /\
  EP s = [4; 1; 2; 3; 2; 3; 4; 1] /\
  forall p, 1 <= p <= 4 -> count_occ Z.eq_dec (EP s) p = 2%nat.
Proof.
  intros Hs Hh Hk. split.
  - destruct (expanded_bits k s Hs half Hh) as [He _].
    destruct (feistel_unfold k s Hs half subkey Hh Hk) as [Bm [E0 [E1 Hp]]].
    destruct (feistel_ref k s Hs half subkey Hh Hk) as [Hf Bf].
    eexists _, _, _, (Ref.feistel s half subkey). cbv zeta.
    split; [exact He |]. split; [exact (proj1 Bm) |].
    split; [exact E0 |]. split; [exact E1 |].
    split; [| split; assumption].
    now rewrite <- Hp.
  - destruct (instance_tables k s Hs) as [_ [_ [-> _]]].
    split; [reflexivity |]. intros p Hp.
    assert (E : p = 1 \/ p = 2 \/ p = 3 \/ p = 4) by lia.
    destruct E as [-> | [-> | [-> | ->]]]; reflexivity.
Qed.

Lemma feistel_steps_witness :
  feistel example_sdes [1; 0; 1; 1] (K1 example_sdes) = OK [0; 0; 0; 0].
Proof.
  destruct (feistel_steps example_key example_sdes [1; 0; 1; 1]
                          (K1 example_sdes))
    as [[e [o0 [o1 [out [_ [_ [_ [_ [_ [Hf _]]]]]]]]]] _].
  - reflexivity.
  - closed_bits.
  - closed_bits.
  - rewrite Hf. vm_compute in Hf. exact (eq_sym Hf).
Defined.

(** ** The cipher core *)

Section Rounds.

Variables (k : list Z) (s : SDES).
Hypothesis Hinit : init k = OK s.

Lemma block_tables :
  Forall (fun t => 1 <= t <= 8) (IP s) /\ List.length (IP s) = 8%nat /\
  Forall (fun t => 1 <= t <= 8) (IP_INV s) /\
  List.length (IP_INV s) = 8%nat.
Proof.
  destruct (instance_tables k s Hinit) as [-> [-> _]].
  repeat split; try reflexivity; closed_range.
Qed.

(** The intermediate values of the two rounds on a well-formed block. *)
Lemma rounds_trace (ka kb block : list Z) :
  bits 8 ka -> bits 8 kb -> wf_block block ->
  let ip := Ref.permute block (IP s) in
  let L0 := firstn 4 ip in
  let R0 := skipn 4 ip in
  let F1 := Ref.feistel s R0 ka in
  let right := Ref.xor L0 F1 in
  let F2 := Ref.feistel s right kb in
  let newLeft := Ref.xor R0 F2 in
  permute s block (IP s) = OK ip /\ bits 8 ip /\
  feistel s R0 ka = OK F1 /\ bits 4 F1 /\ bits 4 L0 /\ bits 4 R0 /\
  feistel s right kb = OK F2 /\ bits 4 F2 /\
  permute s (newLeft ++ right) (IP_INV s)
  = OK (Ref.rounds s ka kb block) /\
  wf_block (Ref.rounds s ka kb block).
Proof.
  intros Ha Hb Hblock ip L0 R0 F1 right F2 newLeft.
  destruct block_tables as [Rip [Lip [Rinv Linv]]].
  assert (Bip : bits 8 ip).
  { unfold ip. rewrite <- Lip. apply ref_permute_bits; [| apply Hblock].
    unfold len. now rewrite (proj1 Hblock). }
  pose proof (bits_firstn 4 8 _ ltac:(lia) Bip) as BL0.
  pose proof (bits_skipn 4 8 _ Bip) as BR0. cbn [Nat.sub] in BR0.
  destruct (feistel_ref k s Hinit _ ka BR0 Ha) as [E1 BF1].
  pose proof (ref_xor_bits 4 _ _ BL0 BF1) as Bright.
  destruct (feistel_ref k s Hinit _ kb Bright Hb) as [E2 BF2].
  pose proof (ref_xor_bits 4 _ _ BR0 BF2) as Bleft.
  pose proof (bits_app 4 4 _ _ Bleft Bright) as Bout.
  cbn [Nat.add] in Bout.
  assert (Rout : Forall (fun t => 1 <= t <= len (newLeft ++ right))
                        (IP_INV s)).
  { unfold len, newLeft, right, F2, right, F1, R0, L0.
    now rewrite (proj1 Bout). }
  assert (Bfinal : wf_block (Ref.rounds s ka kb block)).
  { unfold wf_block. rewrite <- Linv. unfold Ref.rounds. cbv zeta.
    apply ref_permute_bits; [exact Rout | apply Bout]. }
  split; [apply permute_ref; unfold len; now rewrite (proj1 Hblock) |].
  split; [exact Bip |]. split; [exact E1 |]. split; [exact BF1 |].
  split; [exact BL0 |]. split; [exact BR0 |]. split; [exact E2 |].
  split; [exact BF2 |]. split; [| exact Bfinal].
  now apply permute_ref.
Qed.

Lemma crypt_ref (ka kb block : list Z) :
  bits 8 ka -> bits 8 kb -> wf_block block ->
  crypt s ka kb block = OK (Ref.rounds s ka kb block) /\
  wf_block (Ref.rounds s ka kb block).
Proof.
  intros Ha Hb Hblock.
  destruct (rounds_trace ka kb block Ha Hb Hblock)
    as [Eip [Bip [E1 [BF1 [BL0 [BR0 [E2 [BF2 [Eout Bout]]]]]]]]].
  split; [| exact Bout].
  unfold crypt. rewrite Eip. cbn [bind].
  destruct (slices_of_8 _ (proj1 Bip)) as [-> ->].
  rewrite E1. cbn [bind].
  rewrite xor_enumerate_ref by (apply BL0 || apply BF1). cbn [bind].
  rewrite E2. cbn [bind].
  rewrite xor_enumerate_ref by (apply BR0 || apply BF2). cbn [bind].
  exact Eout.
Qed.

(** Running the two rounds with the subkeys in the opposite order undoes
    them; only the length of the block matters here. *)
Lemma ref_rounds_inverse (ka kb block : list Z) :
  List.length block = 8%nat ->
  Ref.rounds s kb ka (Ref.rounds s ka kb block) = block.
Proof.
  intros Hl.
  pose proof (ref_feistel_length k s Hinit) as LF.
  destruct (instance_tables k s Hinit) as [Eip [Einv _]].
  unfold Ref.rounds. cbv zeta. rewrite Eip, Einv.
  set (ip := Ref.permute block [2; 6; 3; 1; 4; 8; 5; 7]).
  assert (Lip : List.length ip = 8%nat) by apply length_map.
  set (L0 := firstn 4 ip). set (R0 := skipn 4 ip).
  assert (LL0 : List.length L0 = 4%nat)
    by (unfold L0; rewrite length_firstn; lia).
  assert (LR0 : List.length R0 = 4%nat)
    by (unfold R0; rewrite length_skipn; lia).
  set (right := Ref.xor L0 (Ref.feistel s R0 ka)).
  assert (Lright : List.length right = 4%nat)
    by (unfold right; rewrite ref_xor_length; rewrite ?LF; lia).
  set (newLeft := Ref.xor R0 (Ref.feistel s right kb)).
  assert (LnewLeft : List.length newLeft = 4%nat)
    by (unfold newLeft; rewrite ref_xor_length; rewrite ?LF; lia).
  assert (Eback :
            Ref.permute
              (Ref.permute (newLeft ++ right) [4; 1; 3; 5; 7; 2; 8; 6])
              [2; 6; 3; 1; 4; 8; 5; 7] = newLeft ++ right).
  { clearbody newLeft right. expose_length LnewLeft. expose_length Lright.
    apply IP_INV_then_IP. }
  rewrite Eback. destruct (split_4_4 newLeft right LnewLeft) as [-> ->].
  assert (E1 : Ref.xor newLeft (Ref.feistel s right kb) = R0).
  { unfold newLeft. apply ref_xor_cancel. now rewrite LF. }
  rewrite E1.
  assert (E2 : Ref.xor right (Ref.feistel s R0 ka) = L0).
  { unfold right. apply ref_xor_cancel. now rewrite LF. }
  rewrite E2. unfold L0, R0. rewrite firstn_skipn. unfold ip.
  clear -Hl. expose_length Hl. apply IP_then_IP_INV.
Qed.

Hypothesis Hkey : wf_key k.

Lemma subkeys_bits : bits 8 (K1 s) /\ bits 8 (K2 s).
Proof.
  pose proof Hinit as Hs. pose proof Hkey as Hk. clear Hinit Hkey.
  expose_bits Hk.
  vm_compute in Hs. injection Hs as <-. cbn [K1 K2].
  split; (split; [reflexivity |]);
    repeat (apply Forall_cons; [assumption |]); apply Forall_nil.
Qed.

Lemma encrypt_ref (P : list Z) :
  wf_block P ->
  encrypt s P = OK (Ref.rounds s (K1 s) (K2 s) P) /\
  wf_block (Ref.rounds s (K1 s) (K2 s) P).
Proof.
  destruct subkeys_bits as [B1 B2]. rewrite encrypt_crypt.
  now apply crypt_ref.
Qed.

Lemma decrypt_ref (C : list Z) :
  wf_block C ->
  decrypt s C = OK (Ref.rounds s (K2 s) (K1 s) C) /\
  wf_block (Ref.rounds s (K2 s) (K1 s) C).
Proof.
  destruct subkeys_bits as [B1 B2]. rewrite decrypt_crypt.
  now apply crypt_ref.
Qed.

End Rounds.

(** C1: for a well-formed key the constructor returns an instance, and on a
    well-formed block [encrypt] returns a block that [decrypt], on the same
    instance, maps back to the plaintext. *)
Theorem decrypt_encrypt (k P : list Z) :
  wf_key k -> wf_block P ->
  exists s c,
    init k = OK s /\ encrypt s P = OK c /\ wf_block c /\ decrypt s c = OK P.
Proof.
  intros Hk HP.
  destruct (init_total k (proj1 Hk)) as [s Hs].
  destruct (encrypt_ref k s Hs Hk P HP) as [He Hc].
  destruct (decrypt_ref k s Hs Hk _ Hc) as [Hd _].
  exists s, (Ref.rounds s (K1 s) (K2 s) P).
  rewrite Hd, (ref_rounds_inverse k s Hs _ _ P (proj1 HP)).
  repeat split; assumption || apply Hc.
Qed.

Lemma decrypt_encrypt_witness :
  exists s c,
    init example_key = OK s /\ encrypt s example_plaintext = OK c /\
    wf_block c /\ decrypt s c = OK example_plaintext.
Proof.
  apply (decrypt_encrypt example_key example_plaintext); closed_bits.
Defined.

(** C3: on a well-formed block, [encrypt] is the two-round reference: with
    [L0], [R0] the halves of [permute(plaintext, IP)], round 1 leaves
    [left = R0] and [right = L0 xor feistel(R0, K1)], round 2 gives
    [newLeft = R0 xor feistel(right, K2)] and keeps [right], and the result
    is [permute(newLeft ++ right, IP_INV)]. *)
Theorem encrypt_two_rounds (k : list Z) (s : SDES) (plaintext : list Z) :
  wf_key k -> init k = OK s -> wf_block plaintext ->
  exists ip F1 F2 out,
    permute s plaintext (IP s) = OK ip /\
    let L0 := firstn 4 ip in
    let R0 := skipn 4 ip in
    feistel s R0 (K1 s) = OK F1 /\
    let left := R0 in
    let right := Ref.xor L0 F1 in
    feistel s right (K2 s) = OK F2 /\
    let newLeft := Ref.xor left F2 in
    permute s (newLeft ++ right) (IP_INV s) = OK out /\
    encrypt s plaintext = OK out.
Proof.
  intros Hk Hs HP.
  destruct (subkeys_bits k s Hs Hk) as [B1 B2].
  destruct (rounds_trace k s Hs (K1 s) (K2 s) plaintext B1 B2 HP)
    as [Eip [_ [E1 [_ [_ [_ [E2 [_ [Eout _]]]]]]]]].
  destruct (encrypt_ref k s Hs Hk plaintext HP) as [He _].
  eexists _, _, _, _. cbv zeta.
  split; [exact Eip |]. split; [exact E1 |]. split; [exact E2 |].
  split; [exact Eout | exact He].
Qed.

Lemma encrypt_two_rounds_witness :
  encrypt example_sdes example_plaintext = OK [1; 0; 1; 0; 1; 0; 0; 0].
Proof.
  destruct (encrypt_two_rounds example_key example_sdes example_plaintext)
    as [ip [F1 [F2 [out [_ [_ [_ [_ He]]]]]]]].
  - closed_bits.
  - reflexivity.
  - closed_bits.
  - rewrite He. vm_compute in He. exact (eq_sym He).
Defined.

(** ** Calls on instances as objects *)

Lemma bind_ret {A B : Type} (a : A) (k : A -> Obj.M B) (h : Obj.heap) :
  Obj.bind (Obj.ret a) k h = k a h.
Proof. reflexivity. Qed.

Lemma bind_lift {A B : Type} (m : result A) (k : A -> Obj.M B)
      (h : Obj.heap) :
  Obj.bind (Obj.lift m) k h
  = match m with
    | OK a => k a h
    | Raise e => (Obj.Exc (Obj.PyExn e), h)
    end.
Proof. unfold Obj.bind, Obj.lift. now destruct m. Qed.

(** A computation known to answer as a function on values does. *)
Lemma bind_pure {A B : Type} (m : Obj.M A) (x : result A)
      (k : A -> Obj.M B) (h : Obj.heap) :
  m h = (Obj.of_result x, h) ->
  Obj.bind m k h
  = match x with
    | OK a => k a h
    | Raise e => (Obj.Exc (Obj.PyExn e), h)
    end.
Proof. intros H. unfold Obj.bind. rewrite H. now destruct x. Qed.

Lemma bind_getattr {B : Type} (r : Obj.ref) (a : Obj.lattr)
      (k : list Z -> Obj.M B) (h : Obj.heap) (o : Obj.object) (v : list Z) :
  Obj.objs h r = Some o -> Obj.lists o a = Some v ->
  Obj.bind (Obj.getattr r a) k h = k v h.
Proof. intros Ho Hv. unfold Obj.bind, Obj.getattr. now rewrite Ho, Hv. Qed.

Lemma bind_gettable {B : Type} (r : Obj.ref) (a : Obj.tattr)
      (k : list (list Z) -> Obj.M B) (h : Obj.heap) (o : Obj.object)
      (v : list (list Z)) :
  Obj.objs h r = Some o -> Obj.tables o a = Some v ->
  Obj.bind (Obj.gettable r a) k h = k v h.
Proof. intros Ho Hv. unfold Obj.bind, Obj.gettable. now rewrite Ho, Hv. Qed.

Lemma bind_setattr {B : Type} (r : Obj.ref) (a : Obj.lattr) (v : list Z)
      (k : unit -> Obj.M B) (h : Obj.heap) (o : Obj.object) :
  Obj.objs h r = Some o ->
  Obj.bind (Obj.setattr r a v) k h
  = k tt (Obj.upd h r (Obj.set_list o a v)).
Proof. intros Ho. unfold Obj.bind, Obj.setattr. now rewrite Ho. Qed.

Lemma bind_settable {B : Type} (r : Obj.ref) (a : Obj.tattr)
      (v : list (list Z)) (k : unit -> Obj.M B) (h : Obj.heap)
      (o : Obj.object) :
  Obj.objs h r = Some o ->
  Obj.bind (Obj.settable r a v) k h
  = k tt (Obj.upd h r (Obj.set_table o a v)).
Proof. intros Ho. unfold Obj.bind, Obj.settable. now rewrite Ho. Qed.

Lemma objs_upd_same (h : Obj.heap) (r : Obj.ref) (o : Obj.object) :
  Obj.objs (Obj.upd h r o) r = Some o.
Proof. cbn. now rewrite Nat.eqb_refl. Qed.

Lemma objs_upd_other (h : Obj.heap) (r r' : Obj.ref) (o : Obj.object) :
  r' <> r -> Obj.objs (Obj.upd h r o) r' = Obj.objs h r'.
Proof.
  intros H. cbn. destruct (Nat.eqb_spec r' r); [contradiction | reflexivity].
Qed.

(** *** Methods that do not write *)

Lemma readonly_ret {A : Type} (a : A) : Obj.readonly (Obj.ret a).
Proof. intros h. reflexivity. Qed.

Lemma readonly_lift {A : Type} (m : result A) : Obj.readonly (Obj.lift m).
Proof. intros h. reflexivity. Qed.

Lemma readonly_getattr (r : Obj.ref) (a : Obj.lattr) :
  Obj.readonly (Obj.getattr r a).
Proof.
  intros h. unfold Obj.getattr.
  destruct (Obj.objs h r) as [o |]; [| reflexivity].
  now destruct (Obj.lists o a).
Qed.

Lemma readonly_gettable (r : Obj.ref) (a : Obj.tattr) :
  Obj.readonly (Obj.gettable r a).
Proof.
  intros h. unfold Obj.gettable.
  destruct (Obj.objs h r) as [o |]; [| reflexivity].
  now destruct (Obj.tables o a).
Qed.

Lemma readonly_bind {A B : Type} (m : Obj.M A) (k : A -> Obj.M B) :
  Obj.readonly m -> (forall a, Obj.readonly (k a)) ->
  Obj.readonly (Obj.bind m k).
Proof.
  intros Hm Hk h. unfold Obj.bind. specialize (Hm h).
  destruct (m h) as [[a | e] h']; cbn in Hm; subst h';
    [apply Hk | reflexivity].
Qed.

Lemma readonly_permute (r : Obj.ref) (sequence table : list Z) :
  Obj.readonly (Obj.permute r sequence table).
Proof. apply readonly_lift. Qed.

Lemma readonly_sbox (r : Obj.ref) (half : list Z) (t : list (list Z)) :
  Obj.readonly (Obj.sbox r half t).
Proof. apply readonly_lift. Qed.

Create HintDb readonly.
#[local] Hint Resolve readonly_ret readonly_lift readonly_getattr
  readonly_gettable readonly_permute readonly_sbox : readonly.

Ltac readonly_steps :=
  repeat (cbv zeta;
          first [ apply readonly_bind; [solve [auto with readonly] | intros ]
                | solve [auto with readonly] ]).

Lemma readonly_feistel (r : Obj.ref) (half subkey : list Z) :
  Obj.readonly (Obj.feistel r half subkey).
Proof. unfold Obj.feistel. readonly_steps. Qed.

#[local] Hint Resolve readonly_feistel : readonly.

Lemma readonly_encrypt (r : Obj.ref) (block : list Z) :
  Obj.readonly (Obj.encrypt r block).
Proof. unfold Obj.encrypt. readonly_steps. Qed.

Lemma readonly_decrypt (r : Obj.ref) (block : list Z) :
  Obj.readonly (Obj.decrypt r block).
Proof. unfold Obj.decrypt. readonly_steps. Qed.

(** *** Methods on an object that holds an instance value *)

Lemma obj_permute (r : Obj.ref) (s : SDES) (sequence table : list Z) :
  Obj.permute r sequence table = Obj.lift (permute s sequence table).
Proof. reflexivity. Qed.

Lemma obj_sbox (r : Obj.ref) (s : SDES) (half : list Z)
      (t : list (list Z)) :
  Obj.sbox r half t = Obj.lift (sbox s half t).
Proof. reflexivity. Qed.

(** One statement of a method body, the corresponding statement of the
    function on values being the same computation. *)
Ltac method_step r s :=
  first
    [ erewrite bind_getattr by eassumption
    | erewrite bind_gettable by eassumption
    | rewrite bind_ret
    | rewrite (obj_permute r s)
    | rewrite (obj_sbox r s)
    | rewrite bind_lift;
      match goal with
      | |- context [match ?m with OK _ => _ | Raise _ => _ end] =>
          destruct m; cbn [bind Obj.of_result]; [| reflexivity]
      end ];
  cbv zeta.

Section ObjectOfInstance.

Variables (h : Obj.heap) (r : Obj.ref) (o : Obj.object) (s : SDES).
Hypothesis Hobj : Obj.objs h r = Some o.
Hypothesis Hmodels : models o s.

Lemma feistel_on_object (half subkey : list Z) :
  Obj.feistel r half subkey h = (Obj.of_result (feistel s half subkey), h).
Proof.
  destruct Hmodels as [_ [_ [_ [_ [_ [HEP [HP4 [HS0 [HS1 _]]]]]]]]].
  unfold Obj.feistel, feistel.
  repeat method_step r s. reflexivity.
Qed.

(** The body shared by [encrypt] and [decrypt], statement by statement. *)
Ltac rounds_on_object :=
  unfold crypt;
  do 4 method_step r s;
  rewrite (bind_pure _ _ _ _ (feistel_on_object _ _));
  match goal with
  | |- context [match ?m with OK _ => _ | Raise _ => _ end] =>
      destruct m; cbn [bind]; [| reflexivity]
  end;
  do 2 method_step r s;
  rewrite (bind_pure _ _ _ _ (feistel_on_object _ _));
  match goal with
  | |- context [match ?m with OK _ => _ | Raise _ => _ end] =>
      destruct m; cbn [bind]; [| reflexivity]
  end;
  do 2 method_step r s; reflexivity.

Lemma encrypt_on_object (block : list Z) :
  Obj.encrypt r block h = (Obj.of_result (encrypt s block), h).
Proof.
  destruct Hmodels as [_ [_ [_ [HIP [HINV [_ [_ [_ [_ [H1 H2]]]]]]]]]].
  rewrite encrypt_crypt. unfold Obj.encrypt. rounds_on_object.
Qed.

Lemma decrypt_on_object (block : list Z) :
  Obj.decrypt r block h = (Obj.of_result (decrypt s block), h).
Proof.
  destruct Hmodels as [_ [_ [_ [HIP [HINV [_ [_ [_ [_ [H1 H2]]]]]]]]]].
  rewrite decrypt_crypt. unfold Obj.decrypt. rounds_on_object.
Qed.

End ObjectOfInstance.

(** *** Construction *)

Lemma generate_keys_on_object (h : Obj.heap) (r : Obj.ref)
      (o : Obj.object) (s : SDES) :
  Obj.objs h r = Some o ->
  Obj.lists o Obj.key = Some (key s) ->
  Obj.lists o Obj.P10 = Some (P10 s) ->
  Obj.lists o Obj.P8 = Some (P8 s) ->
  Obj.generate_keys r h = (Obj.of_result (generate_keys s), h).
Proof.
  intros Ho Hk H10 H8.
  unfold Obj.generate_keys, generate_keys, Obj.left_shift, left_shift.
  repeat method_step r s. reflexivity.
Qed.

(** [SDES(key)] returns exactly when [init] does; the new reference is the
    next free one, the object it points to holds the instance value, and
    the objects that were there are as they were. *)
Lemma SDES_returns (k : list Z) (h h' : Obj.heap) (r : Obj.ref) :
  Obj.SDES k h = (Obj.Ret r, h') ->
  exists s o,
    init k = OK s /\ r = Obj.next h /\ Obj.next h' = S (Obj.next h) /\
    Obj.objs h' r = Some o /\ models o s /\
    forall r', r' <> r -> Obj.objs h' r' = Obj.objs h r'.
Proof.
  unfold Obj.SDES, Obj.init.
  unfold Obj.bind at 1. cbn [Obj.alloc].
  set (h0 := {| Obj.next := S (Obj.next h); Obj.objs := _ |}).
  assert (H0 : Obj.objs h0 (Obj.next h) = Some Obj.blank)
    by (cbn; now rewrite Nat.eqb_refl).
  assert (F0 : forall r', r' <> Obj.next h -> Obj.objs h0 r' = Obj.objs h r').
  { intros r' Hr. cbn. now destruct (Nat.eqb_spec r' (Obj.next h)). }
  assert (N0 : Obj.next h0 = S (Obj.next h)) by reflexivity.
  clearbody h0. unfold Obj.bind at 1.
  erewrite bind_setattr by exact H0.
  do 6 (erewrite bind_setattr by apply objs_upd_same).
  do 2 (erewrite bind_settable by apply objs_upd_same).
  match goal with
  | |- context [Obj.bind (Obj.generate_keys _) _ ?hh] =>
      set (h9 := hh);
      match hh with
      | Obj.upd _ _ ?oo => set (o9 := oo) in *
      end
  end.
  set (pre := {| key := k;
                 P10 := [3; 5; 2; 7; 4; 10; 1; 9; 8; 6];
                 P8 := [6; 3; 7; 4; 8; 5; 10; 9];
                 IP := [2; 6; 3; 1; 4; 8; 5; 7];
                 IP_INV := [4; 1; 3; 5; 7; 2; 8; 6];
                 EP := [4; 1; 2; 3; 2; 3; 4; 1];
                 P4 := [2; 4; 3; 1];
                 S0 := [[1; 0; 3; 2]; [3; 2; 1; 0]; [0; 2; 1; 3];
                        [3; 1; 3; 2]];
                 S1 := [[0; 1; 2; 3]; [2; 0; 1; 3]; [3; 0; 1; 0];
                        [2; 1; 0; 3]];
                 K1 := [];
                 K2 := [] |}).
  rewrite (bind_pure _ _ _ _
             (generate_keys_on_object h9 (Obj.next h) o9 pre
                (objs_upd_same _ _ _) eq_refl eq_refl eq_refl)).
  unfold init. fold pre.
  destruct (generate_keys pre) as [[k1 k2] |]; cbn [bind];
    [| discriminate].
  erewrite bind_setattr by apply objs_upd_same.
  unfold Obj.setattr. rewrite objs_upd_same. cbn [fst snd].
  intros [= <- <-].
  eexists _, _. split; [reflexivity |]. split; [reflexivity |].
  split; [subst h9; cbn [Obj.next Obj.upd]; exact N0 |].
  split; [apply objs_upd_same |].
  split; [repeat split |].
  intros r' Hr. subst h9. rewrite !objs_upd_other by exact Hr.
  now apply F0.
Qed.

(** *** Sequences of calls *)

Lemma run_on_objects (s : SDES) (h : Obj.heap) (cs : list Obj.call) :
  Forall (fun c => exists o, Obj.objs h (Obj.target c) = Some o
                             /\ models o s) cs ->
  Obj.run cs h = (map (answer s) cs, h).
Proof.
  induction 1 as [| c cs [o [Ho Hm]] _ IH]; [reflexivity |].
  cbn [Obj.run map].
  assert (E : Obj.do_call c h = (answer s c, h)).
  { destruct c as [r b | r b]; cbn [Obj.do_call answer Obj.target] in *.
    - exact (encrypt_on_object h r o s Ho Hm b).
    - exact (decrypt_on_object h r o s Ho Hm b). }
  now rewrite E, IH.
Qed.



(** C9: on a well-formed key and block nothing raises: the constructor
    returns an instance with two eight-bit subkeys, and [encrypt] and
    [decrypt] each return eight bits. *)
Theorem total_on_well_formed (k block : list Z) :
  wf_key k -> wf_block block ->
  exists s c d,
    init k = OK s /\ bits 8 (K1 s) /\ bits 8 (K2 s) /\
    encrypt s block = OK c /\ wf_block c /\
    decrypt s block = OK d /\ wf_block d.
Proof.
  intros Hk Hb.
  destruct (init_total k (proj1 Hk)) as [s Hs].
  destruct (subkeys_bits k s Hs Hk) as [B1 B2].
  destruct (encrypt_ref k s Hs Hk block Hb) as [He Hc].
  destruct (decrypt_ref k s Hs Hk block Hb) as [Hd Hp].
  exists s, (Ref.rounds s (K1 s) (K2 s) block),
    (Ref.rounds s (K2 s) (K1 s) block).
  split; [exact Hs |]. split; [exact B1 |]. split; [exact B2 |].
  split; [exact He |]. split; [exact Hc |]. split; [exact Hd | exact Hp].
Qed.

Lemma total_on_well_formed_witness :
  exists s c d,
    init example_key = OK s /\ bits 8 (K1 s) /\ bits 8 (K2 s) /\
    encrypt s example_plaintext = OK c /\ wf_block c /\
    decrypt s example_plaintext = OK d /\ wf_block d.
Proof.
  apply (total_on_well_formed example_key example_plaintext); closed_bits.
Defined.

(** C10: on an instance built from a well-formed key, [encrypt] undoes
    [decrypt] on every eight-bit block, so [encrypt] is one-to-one and onto
    on eight-bit blocks. *)
Theorem encrypt_decrypt (k : list Z) (s : SDES) :
  wf_key k -> init k = OK s ->
  (forall C, wf_block C ->
     exists p, decrypt s C = OK p /\ wf_block p /\ encrypt s p = OK C) /\
  (forall P1 P2, wf_block P1 -> wf_block P2 ->
     encrypt s P1 = encrypt s P2 -> P1 = P2) /\
  (forall C, wf_block C -> exists P, wf_block P /\ encrypt s P = OK C).
Proof.
  intros Hk Hs.
  assert (back : forall C, wf_block C ->
            exists p, decrypt s C = OK p /\ wf_block p /\ encrypt s p = OK C).
  { intros C HC.
    destruct (decrypt_ref k s Hs Hk C HC) as [Hd Hp].
    destruct (encrypt_ref k s Hs Hk _ Hp) as [He _].
    exists (Ref.rounds s (K2 s) (K1 s) C).
    rewrite He, (ref_rounds_inverse k s Hs _ _ C (proj1 HC)).
    repeat split; assumption || apply Hp. }
  split; [exact back |]. split.
  - intros P1 P2 H1 H2.
    destruct (encrypt_ref k s Hs Hk P1 H1) as [E1 _].
    destruct (encrypt_ref k s Hs Hk P2 H2) as [E2 _].
    rewrite E1, E2. intros [= E].
    pose proof (ref_rounds_inverse k s Hs (K1 s) (K2 s) P1 (proj1 H1)) as R1.
    pose proof (ref_rounds_inverse k s Hs (K1 s) (K2 s) P2 (proj1 H2)) as R2.
    congruence.
  - intros C HC. destruct (back C HC) as [p [_ [Hp He]]].
    exists p. now split.
Qed.

Lemma encrypt_decrypt_witness :
  exists p, decrypt example_sdes [1; 0; 1; 0; 1; 0; 0; 0] = OK p /\
            wf_block p /\
            encrypt example_sdes p = OK [1; 0; 1; 0; 1; 0; 0; 0].
Proof.
  apply (proj1 (encrypt_decrypt example_key example_sdes
                  ltac:(closed_bits) ltac:(reflexivity))).
  closed_bits.
Defined.

(** * Further properties of the code *)

(** ** The constructor and the key schedule on arbitrary keys *)

(** Undo one [bind] in a hypothesis that says a computation returned. *)
Ltac bind_inv H x E :=
  match type of H with
  | bind ?m _ = OK _ =>
      destruct m as [x |] eqn:E; cbn [bind] in H; [| discriminate H]
  end.

(** The subkeys the constructor stores, for a key of at least ten
    elements. *)
Lemma init_long (k : list Z) :
  (10 <= List.length k)%nat ->
  exists s,
    init k = OK s /\ key s = k /\
    K1 s = select k [0; 6; 8; 3; 7; 2; 9; 5]%nat /\
    K2 s = select k [7; 2; 5; 4; 9; 1; 8; 0]%nat.
Proof.
  intros Hl. unfold init, generate_keys. cbn [key P10 P8].
  rewrite permute_ref
    by (apply Forall_forall; intros t Ht; unfold len; cbn in Ht; lia).
  do 10 (destruct k as [| ? k]; [cbn in Hl; lia |]).
  eexists. split; [reflexivity |]. repeat split.
Qed.

Lemma init_short (k : list Z) :
  (List.length k < 10)%nat -> init k = Raise IndexError.
Proof.
  intros Hl. unfold init, generate_keys. cbn [key P10 P8].
  rewrite (proj1 (permute_rejects _ k [3; 5; 2; 7; 4; 10; 1; 9; 8; 6]));
    [reflexivity |].
  apply Exists_exists. exists 10. split; [cbn; auto 10 |].
  right. unfold len. lia.
Qed.

(** X1: the constructor raises [IndexError] on a key of fewer than ten
    elements, and on nothing else: every key of at least ten elements,
    whatever the elements are, gives an instance. *)
Theorem init_raises_iff_short (k : list Z) :
  ((List.length k < 10)%nat -> init k = Raise IndexError) /\
  ((10 <= List.length k)%nat -> exists s, init k = OK s /\ key s = k).
Proof.
  split.
  - apply init_short.
  - intros Hl. destruct (init_long k Hl) as [s [Hs [Hk _]]]. now exists s.
Qed.

Lemma init_raises_iff_short_witness :
  init [1; 0; 1; 0; 0; 0; 0; 0; 1] = Raise IndexError /\
  exists s, init [1; 0; 1; 0; 0; 0; 0; 0; 1; 0; 7; 7] = OK s /\
            key s = [1; 0; 1; 0; 0; 0; 0; 0; 1; 0; 7; 7].
Proof.
  split.
  - apply (proj1 (init_raises_iff_short [1; 0; 1; 0; 0; 0; 0; 0; 1])).
    cbn. lia.
  - apply (proj2 (init_raises_iff_short
                    [1; 0; 1; 0; 0; 0; 0; 0; 1; 0; 7; 7])).
    cbn. lia.
Defined.

(** X2: for a key of at least ten elements, [K1] is the key's elements at
    the 0-based positions 0, 6, 8, 3, 7, 2, 9, 5 and [K2] those at 7, 2, 5,
    4, 9, 1, 8, 0; elements after the tenth play no part. *)
Theorem subkeys_select (k : list Z) (s : SDES) :
  (10 <= List.length k)%nat -> init k = OK s ->
  K1 s = select k [0; 6; 8; 3; 7; 2; 9; 5]%nat /\
  K2 s = select k [7; 2; 5; 4; 9; 1; 8; 0]%nat /\
  K1 s = select (firstn 10 k) [0; 6; 8; 3; 7; 2; 9; 5]%nat /\
  K2 s = select (firstn 10 k) [7; 2; 5; 4; 9; 1; 8; 0]%nat.
Proof.
  intros Hl Hs. destruct (init_long k Hl) as [s' [Hs' [_ [H1 H2]]]].
  assert (s' = s) by congruence. subst s'.
  split; [exact H1 |]. split; [exact H2 |].
  rewrite H1, H2.
  do 10 (destruct k as [| ? k]; [cbn in Hl; lia |]).
  split; reflexivity.
Qed.

Lemma subkeys_select_witness :
  K1 example_sdes = [1; 0; 1; 0; 0; 1; 0; 0] /\
  K2 example_sdes = [0; 1; 0; 0; 0; 0; 1; 1].
Proof.
  destruct (subkeys_select example_key example_sdes) as [H1 [H2 _]].
  - cbn. lia.
  - reflexivity.
  - rewrite H1, H2. split; reflexivity.
Defined.

(** X3: a key of exactly ten elements can be read back from the two
    subkeys: two such keys with the same [K1] and the same [K2] are
    equal. *)
Theorem subkeys_determine_key (k k' : list Z) (s s' : SDES) :
  List.length k = 10%nat -> List.length k' = 10%nat ->
  init k = OK s -> init k' = OK s' ->
  K1 s = K1 s' -> K2 s = K2 s' -> k = k'.
Proof.
  intros Hl Hl' Hs Hs' E1 E2.
  destruct (init_long k ltac:(lia)) as [t [Ht [_ [H1 H2]]]].
  destruct (init_long k' ltac:(lia)) as [t' [Ht' [_ [H1' H2']]]].
  assert (t = s) by congruence. assert (t' = s') by congruence. subst t t'.
  rewrite H1, H1' in E1. rewrite H2, H2' in E2.
  expose_length Hl. expose_length Hl'.
  cbn in E1, E2. congruence.
Qed.

Lemma subkeys_determine_key_witness :
  example_key = example_key.
Proof.
  apply (subkeys_determine_key example_key example_key
           example_sdes example_sdes); reflexivity.
Defined.

(** ** [left_shift] on arbitrary lists and shift counts *)

(** The slices taken by [left_shift] cut the list at one point. *)
Lemma left_shift_cut (self : SDES) (half : list Z) (shifts : Z) :
  left_shift self half shifts
  = skipn (Z.to_nat (clamp (len half) shifts)) half
    ++ firstn (Z.to_nat (clamp (len half) shifts)) half.
Proof. reflexivity. Qed.

Lemma clamp_inside (n k : Z) : 0 <= k <= n -> clamp n k = k.
Proof.
  intros H. unfold clamp. destruct (Z.ltb_spec k 0); lia.
Qed.

Lemma left_shift_inside (self : SDES) (half : list Z) (n : nat) :
  (n <= List.length half)%nat ->
  left_shift self half (Z.of_nat n) = skipn n half ++ firstn n half.
Proof.
  intros H. rewrite left_shift_cut, clamp_inside by (unfold len; lia).
  now rewrite Nat2Z.id.
Qed.

(** X4: whatever the shift count, [left_shift] only rearranges: its result
    is a permutation of the list it is given, of the same length. *)
Theorem left_shift_permutation (self : SDES) (half : list Z) (shifts : Z) :
  Permutation (left_shift self half shifts) half /\
  List.length (left_shift self half shifts) = List.length half.
Proof.
  assert (P : Permutation (left_shift self half shifts) half).
  { rewrite left_shift_cut.
    set (m := Z.to_nat (clamp (len half) shifts)).
    rewrite <- (firstn_skipn m half) at 3.
    apply Permutation_app_comm. }
  split; [exact P | now apply Permutation_length].
Qed.

(** X5: the shift count is not reduced modulo the length. A count of at
    least the length, or of at most minus the length, returns the list
    unchanged; a negative count within the length rotates to the right,
    being the same as the count plus the length. *)
Theorem left_shift_out_of_range (self : SDES) (half : list Z) (shifts : Z) :
  (len half <= shifts \/ shifts <= - len half ->
   left_shift self half shifts = half) /\
  (- len half < shifts < 0 ->
   left_shift self half shifts = left_shift self half (shifts + len half)).
Proof.
  split.
  - intros H. rewrite left_shift_cut.
    assert (C : clamp (len half) shifts = len half
                \/ clamp (len half) shifts = 0).
    { unfold clamp, len in *. destruct (Z.ltb_spec shifts 0); lia. }
    destruct C as [-> | ->].
    + unfold len. rewrite Nat2Z.id, skipn_all, firstn_all. reflexivity.
    + cbn. apply app_nil_r.
  - intros H. rewrite !left_shift_cut.
    replace (clamp (len half) (shifts + len half))
      with (clamp (len half) shifts); [reflexivity |].
    unfold clamp, len in *.
    destruct (Z.ltb_spec shifts 0), (Z.ltb_spec (shifts + Z.of_nat (List.length half)) 0);
      lia.
Qed.

Lemma left_shift_out_of_range_witness :
  left_shift example_sdes [1; 2; 3; 4; 5] 7 = [1; 2; 3; 4; 5] /\
  left_shift example_sdes [1; 2; 3; 4; 5] (-2)
  = left_shift example_sdes [1; 2; 3; 4; 5] 3.
Proof.
  split.
  - apply (proj1 (left_shift_out_of_range example_sdes [1; 2; 3; 4; 5] 7)).
    left. vm_compute. discriminate.
  - apply (proj2 (left_shift_out_of_range example_sdes [1; 2; 3; 4; 5] (-2))).
    split; reflexivity.
Defined.

(** X6: two successive shifts by counts that are not negative and together
    do not exceed the length are one shift by their sum. *)
Theorem left_shift_compose (self : SDES) (half : list Z) (a b : Z) :
  0 <= a -> 0 <= b -> a + b <= len half ->
  left_shift self (left_shift self half a) b = left_shift self half (a + b).
Proof.
  intros Ha Hb Hab. unfold len in Hab.
  rewrite <- (Z2Nat.id a Ha), <- (Z2Nat.id b Hb), <- Nat2Z.inj_add.
  set (n := Z.to_nat a) in *. set (m := Z.to_nat b) in *.
  assert (Hn : (n + m <= List.length half)%nat) by lia.
  rewrite (left_shift_inside self half n) by lia.
  rewrite (left_shift_inside self half (n + m)) by lia.
  rewrite left_shift_inside
    by (rewrite length_app, length_skipn, length_firstn; lia).
  rewrite skipn_app, firstn_app, skipn_skipn, length_skipn.
  replace (m - (List.length half - n))%nat with 0%nat by lia.
  cbn [skipn firstn]. rewrite app_nil_r, <- app_assoc.
  replace (m + n)%nat with (n + m)%nat by lia. f_equal.
  rewrite firstn_skipn_comm.
  rewrite <- (firstn_skipn n (firstn (n + m) half)) at 2.
  f_equal. rewrite firstn_firstn. f_equal. lia.
Qed.

Lemma left_shift_compose_witness :
  left_shift example_sdes (left_shift example_sdes [1; 2; 3; 4; 5] 1) 2
  = left_shift example_sdes [1; 2; 3; 4; 5] (1 + 2).
Proof.
  apply (left_shift_compose example_sdes [1; 2; 3; 4; 5] 1 2).
  - discriminate.
  - discriminate.
  - vm_compute. discriminate.
Defined.

(** X7: for a count between 0 and the length, the element that
    [left_shift] puts at position [i] is the one that was at position
    [(i + shifts) mod length]. *)
Theorem left_shift_index (self : SDES) (half : list Z) (shifts i : Z) :
  0 <= shifts <= len half -> 0 <= i < len half ->
  index (left_shift self half shifts) i
  = index half ((i + shifts) mod len half).
Proof.
  intros Hs Hi. unfold len in Hs, Hi.
  assert (Hm : 0 <= (i + shifts) mod len half < len half)
    by (apply Z.mod_pos_bound; unfold len; lia).
  rewrite (index_nonneg half _ 0) by exact Hm.
  rewrite (index_nonneg _ i 0)
    by (unfold len; rewrite (proj2 (left_shift_permutation self half shifts));
        lia).
  f_equal.
  rewrite <- (Z2Nat.id shifts) at 1 by lia.
  rewrite left_shift_inside by lia.
  set (n := Z.to_nat shifts). set (j := Z.to_nat i).
  destruct (Nat.lt_ge_cases j (List.length half - n)) as [Hlt | Hge].
  - rewrite app_nth1 by (rewrite length_skipn; lia).
    rewrite nth_skipn. f_equal.
    rewrite Z.mod_small by (unfold len; lia). lia.
  - rewrite app_nth2 by (rewrite length_skipn; lia).
    rewrite length_skipn, nth_firstn.
    destruct (Nat.ltb_spec (j - (List.length half - n)) n); [| lia].
    f_equal.
    assert (E : i + shifts - len half = (i + shifts) mod len half).
    { apply (Z.mod_unique _ _ 1); unfold len; lia. }
    rewrite <- E. unfold len. lia.
Qed.

Lemma left_shift_index_witness :
  index (left_shift example_sdes [1; 2; 3; 4; 5] 2) 4
  = index [1; 2; 3; 4; 5] ((4 + 2) mod len [1; 2; 3; 4; 5]).
Proof.
  apply (left_shift_index example_sdes [1; 2; 3; 4; 5] 2 4);
    split; vm_compute; discriminate || reflexivity.
Defined.

(** ** Composing permutations *)

Lemma ref_permute_compose (source t1 t2 : list Z) :
  Forall (fun t => 1 <= t <= len t1) t2 ->
  Ref.permute (Ref.permute source t1) t2
  = Ref.permute source (Ref.permute t1 t2).
Proof.
  intros H. unfold Ref.permute. rewrite map_map.
  apply map_ext_in. intros t Ht.
  rewrite Forall_forall in H. specialize (H t Ht). unfold len in H.
  rewrite (nth_indep _ 0 (nth (Z.to_nat (0 - 1)) source 0))
    by (rewrite length_map; lia).
  apply (map_nth (fun x => nth (Z.to_nat (x - 1)) source 0)).
Qed.

Lemma ref_permute_range (n : Z) (t1 t2 : list Z) :
  Forall (fun t => 1 <= t <= n) t1 ->
  Forall (fun t => 1 <= t <= len t1) t2 ->
  Forall (fun t => 1 <= t <= n) (Ref.permute t1 t2).
Proof.
  intros H1 H2. unfold Ref.permute. apply Forall_map.
  eapply Forall_impl; [| exact H2]. cbv beta. intros t Ht.
  rewrite Forall_forall in H1. apply H1, nth_In. unfold len in Ht. lia.
Qed.

(** X8: permuting twice is permuting once with the permuted table: when the
    entries of [t1] are positions of the source and those of [t2] positions
    of [t1], [permute(permute(source, t1), t2)] equals
    [permute(source, permute(t1, t2))]. *)
Theorem permute_compose (self : SDES) (source t1 t2 : list Z) :
  Forall (fun t => 1 <= t <= len source) t1 ->
  Forall (fun t => 1 <= t <= len t1) t2 ->
  exists mid tab out,
    permute self source t1 = OK mid /\
    permute self t1 t2 = OK tab /\
    permute self mid t2 = OK out /\
    permute self source tab = OK out.
Proof.
  intros H1 H2.
  exists (Ref.permute source t1), (Ref.permute t1 t2),
    (Ref.permute (Ref.permute source t1) t2).
  split; [now apply permute_ref |].
  split; [now apply permute_ref |].
  split.
  - apply permute_ref. unfold len, Ref.permute at 1. now rewrite length_map.
  - rewrite ref_permute_compose by exact H2.
    apply permute_ref. now apply ref_permute_range.
Qed.

Lemma permute_compose_witness :
  exists mid tab out,
    permute example_sdes example_plaintext (IP example_sdes) = OK mid /\
    permute example_sdes (IP example_sdes) (IP_INV example_sdes) = OK tab /\
    permute example_sdes mid (IP_INV example_sdes) = OK out /\
    permute example_sdes example_plaintext tab = OK out.
Proof.
  apply (permute_compose example_sdes example_plaintext
           (IP example_sdes) (IP_INV example_sdes));
    repeat (apply Forall_cons; [vm_compute; split; discriminate |]);
    apply Forall_nil.
Defined.

(** ** [sbox] outside its intended inputs *)

Lemma index_wrap {A : Type} (l : list A) (i : Z) (d : A) :
  - len l <= i < len l ->
  index l i = OK (nth (Z.to_nat (i mod len l)) l d).
Proof.
  intros H. destruct (Z_lt_ge_dec i 0) as [Hn | Hp].
  - rewrite (index_negative l i d) by lia.
    replace (i mod len l) with (i + len l); [reflexivity |].
    apply (Z.mod_unique _ _ (-1)); lia.
  - rewrite (index_nonneg l i d) by lia.
    now rewrite Z.mod_small by lia.
Qed.

Lemma wf_sbox_entry (table : list (list Z)) (r c : Z) :
  wf_sbox table -> 0 <= r < 4 -> 0 <= c < 4 ->
  List.length (nth (Z.to_nat r) table []) = 4%nat /\
  0 <= Ref.entry table r c <= 3.
Proof.
  intros [Hl Hrows] Hr Hc.
  rewrite Forall_forall in Hrows.
  destruct (Hrows (nth (Z.to_nat r) table [])) as [L F].
  { apply nth_In. lia. }
  split; [exact L |].
  rewrite Forall_forall in F. apply F. unfold Ref.entry.
  apply nth_In. lia.
Qed.

(** [sbox] on four elements: the two table lookups, then the digits. *)
Lemma sbox_lookups (self : SDES) (h0 h1 h2 h3 : Z) (table : list (list Z)) :
  sbox self [h0; h1; h2; h3] table
  = (r <- index table (2 * h0 + h3) ;;
     value <- index r (2 * h1 + h2) ;;
     comprehension int_of_char (format_02b value)).
Proof.
  unfold sbox. repeat run_index.
  rewrite !Z.shiftl_mul_pow2 by lia. change (2 ^ 1) with 2.
  now rewrite !(Z.mul_comm _ 2).
Qed.

(** X9: on any four integers and a 4 x 4 table of values in [0, 3], [sbox]
    returns exactly when the row index [2*half[0] + half[3]] and the column
    index [2*half[1] + half[2]] both lie in [-4, 4); a negative index is not
    rejected but counted from the end, so the entry read is the one at the
    indices taken modulo 4. Any other index raises [IndexError]. *)
Theorem sbox_index_range (self : SDES) (h0 h1 h2 h3 : Z)
        (table : list (list Z)) :
  wf_sbox table ->
  let row := 2 * h0 + h3 in
  let col := 2 * h1 + h2 in
  (-4 <= row < 4 -> -4 <= col < 4 ->
   sbox self [h0; h1; h2; h3] table
   = OK (Ref.bits2 (Ref.entry table (row mod 4) (col mod 4)))) /\
  (~ (-4 <= row < 4 /\ -4 <= col < 4) ->
   sbox self [h0; h1; h2; h3] table = Raise IndexError).
Proof.
  intros Ht row col.
  assert (Lt : len table = 4) by (unfold len; now rewrite (proj1 Ht)).
  rewrite (sbox_lookups self h0 h1 h2 h3 table). fold row col.
  assert (Rrow : -4 <= row < 4 ->
                 index table row = OK (nth (Z.to_nat (row mod 4)) table [])).
  { intros H. rewrite <- Lt. apply index_wrap. lia. }
  split.
  - intros Hr Hc. rewrite (Rrow Hr). cbn [bind].
    assert (Hrm : 0 <= row mod 4 < 4) by (apply Z.mod_pos_bound; lia).
    assert (Hcm : 0 <= col mod 4 < 4) by (apply Z.mod_pos_bound; lia).
    destruct (wf_sbox_entry table _ _ Ht Hrm Hcm) as [L E].
    assert (Lr : len (nth (Z.to_nat (row mod 4)) table []) = 4)
      by (unfold len; now rewrite L).
    rewrite (index_wrap _ col 0) by lia. cbn [bind]. rewrite Lr.
    now apply format_bits2.
  - intros Hn.
    destruct (Z_lt_ge_dec row (-4)) as [R1 | R1];
      [rewrite index_outside by lia; reflexivity |].
    destruct (Z_lt_ge_dec row 4) as [R2 | R2];
      [| rewrite index_outside by lia; reflexivity].
    rewrite Rrow by lia. cbn [bind].
    assert (Hrm : 0 <= row mod 4 < 4) by (apply Z.mod_pos_bound; lia).
    destruct (wf_sbox_entry table _ 0 Ht Hrm ltac:(lia)) as [L _].
    rewrite index_outside; [reflexivity |].
    unfold len. rewrite L. lia.
Qed.

Lemma sbox_index_range_witness :
  sbox example_sdes [-1; 0; 0; 1] (S0 example_sdes) = OK [1; 1] /\
  sbox example_sdes [2; 0; 0; 0] (S0 example_sdes) = Raise IndexError.
Proof.
  assert (W : wf_sbox (S0 example_sdes)).
  { split; [reflexivity |].
    repeat (apply Forall_cons; [split; [reflexivity | closed_range] |]).
    apply Forall_nil. }
  split.
  - apply (proj1 (sbox_index_range example_sdes (-1) 0 0 1
                    (S0 example_sdes) W)); split; vm_compute;
      discriminate || reflexivity.
  - apply (proj2 (sbox_index_range example_sdes 2 0 0 0
                    (S0 example_sdes) W)).
    intros [[_ H] _]. vm_compute in H. discriminate H.
Defined.

(** ** The digits [sbox] returns for an arbitrary table value *)

Lemma comprehension_app {A B : Type} (f : A -> result B) (a b : list A) :
  comprehension f (a ++ b)
  = (x <- comprehension f a ;; y <- comprehension f b ;; OK (x ++ y)).
Proof.
  induction a as [| u a IH]; cbn.
  - now destruct (comprehension f b).
  - destruct (f u); cbn; [| reflexivity].
    rewrite IH. destruct (comprehension f a); cbn; [| reflexivity].
    now destruct (comprehension f b).
Qed.

Lemma bits_value_snoc (ds : list Z) (b : Z) :
  bits_value (ds ++ [b]) = 2 * bits_value ds + b.
Proof. unfold bits_value. now rewrite fold_left_app. Qed.

Lemma digits_of_positive (p : positive) :
  exists ds,
    comprehension int_of_char (bin_pos p) = OK ds /\
    Forall is_bit ds /\ bits_value ds = Z.pos p /\
    List.length ds = Pos.size_nat p.
Proof.
  induction p as [q [ds [E [F [V L]]]] | q [ds [E [F [V L]]]] |].
  - exists (ds ++ [1]). cbn [bin_pos]. rewrite comprehension_app, E.
    split; [reflexivity |]. split.
    + apply Forall_app. split; [exact F |].
      apply Forall_cons; [now right | apply Forall_nil].
    + rewrite bits_value_snoc, V, length_app, L. cbn. split; lia.
  - exists (ds ++ [0]). cbn [bin_pos]. rewrite comprehension_app, E.
    split; [reflexivity |]. split.
    + apply Forall_app. split; [exact F |].
      apply Forall_cons; [now left | apply Forall_nil].
    + rewrite bits_value_snoc, V, length_app, L. cbn. split; lia.
  - exists [1]. repeat split.
    apply Forall_cons; [now right | apply Forall_nil].
Qed.

Lemma bin_pos_length (p : positive) :
  List.length (bin_pos p) = Pos.size_nat p.
Proof.
  induction p as [q IH | q IH |]; cbn; rewrite ?length_app, ?IH; cbn; lia.
Qed.

Lemma digits_of_value (v : Z) :
  (0 <= v ->
   exists ds,
     comprehension int_of_char (format_02b v) = OK ds /\
     Forall is_bit ds /\ bits_value ds = v /\
     (v <= 3 -> List.length ds = 2%nat) /\
     (4 <= v -> (2 < List.length ds)%nat)) /\
  (v < 0 -> comprehension int_of_char (format_02b v) = Raise ValueError).
Proof.
  split.
  - intros Hv. destruct v as [| p | p]; [| | lia].
    + exists [0; 0]. split; [reflexivity |].
      split; [repeat (apply Forall_cons; [now left |]); apply Forall_nil |].
      repeat split; lia.
    + destruct (digits_of_positive p) as [ds [E [F [V L]]]].
      unfold format_02b. rewrite bin_pos_length.
      destruct (Nat.ltb_spec (Pos.size_nat p) 2) as [Hs | Hs].
      * exists (0 :: ds). cbn [comprehension]. rewrite E.
        split; [reflexivity |].
        split; [constructor; [now left | exact F] |].
        split; [exact V |].
        destruct p as [[q | q |] | [q | q |] |];
          cbn [Pos.size_nat] in Hs, L; try lia;
          cbn [List.length]; split; lia.
      * exists ds. split; [exact E |]. split; [exact F |].
        split; [exact V |]. rewrite L.
        destruct p as [[q | q |] | [q | q |] |];
          cbn [Pos.size_nat] in Hs |- *; split; try lia;
          destruct q; cbn [Pos.size_nat]; lia.
  - intros Hv. destruct v as [| p | p]; try lia. reflexivity.
Qed.

(** X10: the digits [sbox] returns are those of the table value whatever it
    is. For a value [v >= 0] read from the table the result is a list of
    binary digits that writes [v], most significant first, of length two
    for [v <= 3] and longer for [v >= 4]; for a negative value [sbox]
    raises [ValueError]. *)
Theorem sbox_digits (self : SDES) (h0 h1 h2 h3 : Z) (table : list (list Z))
        (r : list Z) (v : Z) :
  index table (2 * h0 + h3) = OK r ->
  index r (2 * h1 + h2) = OK v ->
  (0 <= v ->
   exists ds,
     sbox self [h0; h1; h2; h3] table = OK ds /\
     Forall is_bit ds /\ bits_value ds = v /\
     (v <= 3 -> List.length ds = 2%nat) /\
     (4 <= v -> (2 < List.length ds)%nat)) /\
  (v < 0 -> sbox self [h0; h1; h2; h3] table = Raise ValueError).
Proof.
  intros Hr Hv. rewrite sbox_lookups, Hr. cbn [bind]. rewrite Hv. cbn [bind].
  apply digits_of_value.
Qed.

Lemma sbox_digits_witness :
  (exists ds, sbox example_sdes [0; 0; 0; 0] [[6]] = OK ds /\
              bits_value ds = 6 /\ (2 < List.length ds)%nat) /\
  sbox example_sdes [0; 0; 0; 0] [[-1]] = Raise ValueError.
Proof.
  split.
  - destruct (proj1 (sbox_digits example_sdes 0 0 0 0 [[6]] [6] 6
                       eq_refl eq_refl))
      as [ds [E [_ [V [_ L]]]]]; [discriminate |].
    exists ds. split; [exact E |]. split; [exact V |].
    apply L. discriminate.
  - apply (proj2 (sbox_digits example_sdes 0 0 0 0 [[-1]] [-1] (-1)
                    eq_refl eq_refl)).
    reflexivity.
Defined.

(** ** [encrypt] and [decrypt] on arbitrary blocks *)

Lemma permute_length (self : SDES) (source table out : list Z) :
  permute self source table = OK out -> List.length out = List.length table.
Proof.
  unfold permute. revert out.
  induction table as [| t ts IH]; cbn; intros out.
  - now intros [= <-].
  - destruct (index source (t - 1)); cbn; [| discriminate].
    destruct (comprehension _ ts) as [ys |]; cbn; [| discriminate].
    intros [= <-]. cbn. now rewrite (IH ys).
Qed.

(** A table with entries from 1 to [n] reads the first [n] elements only. *)
Lemma ref_permute_prefix (n : nat) (source table : list Z) :
  Forall (fun t => 1 <= t <= Z.of_nat n) table ->
  Ref.permute source table = Ref.permute (firstn n source) table.
Proof.
  intros H. unfold Ref.permute. apply map_ext_in. intros t Ht.
  rewrite Forall_forall in H. specialize (H t Ht).
  rewrite nth_firstn.
  destruct (Nat.ltb_spec (Z.to_nat (t - 1)) n); [reflexivity | lia].
Qed.

Section Blocks.

Variables (k : list Z) (s : SDES).
Hypothesis Hinit : init k = OK s.

Lemma IP_short (block : list Z) :
  (List.length block < 8)%nat ->
  permute s block (IP s) = Raise IndexError.
Proof.
  intros Hl. apply permute_rejects.
  destruct (instance_tables k s Hinit) as [-> _].
  apply Exists_exists. exists 8. split; [cbn; auto 10 |].
  right. unfold len. lia.
Qed.

Lemma IP_long (block : list Z) :
  (8 <= List.length block)%nat ->
  permute s block (IP s) = OK (Ref.permute (firstn 8 block) (IP s)) /\
  List.length (Ref.permute (firstn 8 block) (IP s)) = 8%nat.
Proof.
  intros Hl. destruct (block_tables k s Hinit) as [R [L _]].
  split.
  - rewrite permute_ref.
    + f_equal. now apply ref_permute_prefix.
    + eapply Forall_impl; [| exact R]. cbv beta. unfold len. lia.
  - unfold Ref.permute. now rewrite length_map.
Qed.

Lemma feistel_length (half subkey F : list Z) :
  feistel s half subkey = OK F -> List.length F = 4%nat.
Proof.
  unfold feistel. intros H.
  bind_inv H e Ee. bind_inv H x Ex. bind_inv H o0 E0. bind_inv H o1 E1.
  apply permute_length in H. rewrite H.
  apply (P4_range k s Hinit).
Qed.

(** What a returning run of the two rounds went through. *)
Lemma crypt_steps (ka kb block c : list Z) :
  crypt s ka kb block = OK c ->
  let ip := Ref.permute (firstn 8 block) (IP s) in
  let L0 := firstn 4 ip in
  let R0 := skipn 4 ip in
  exists F1 F2,
    (8 <= List.length block)%nat /\
    feistel s R0 ka = OK F1 /\ List.length F1 = 4%nat /\
    feistel s (Ref.xor L0 F1) kb = OK F2 /\ List.length F2 = 4%nat /\
    c = Ref.permute (Ref.xor R0 F2 ++ Ref.xor L0 F1) (IP_INV s).
Proof.
  intros H ip L0 R0.
  destruct (Nat.lt_ge_cases (List.length block) 8) as [Hs | Hl].
  { unfold crypt in H. rewrite (IP_short block Hs) in H. discriminate H. }
  destruct (IP_long block Hl) as [Eip Lip]. fold ip in Eip, Lip.
  unfold crypt in H. rewrite Eip in H. cbn [bind] in H.
  destruct (slices_of_8 ip Lip) as [E1 E2]. rewrite E1, E2 in H.
  fold L0 R0 in H.
  assert (LL0 : List.length L0 = 4%nat)
    by (unfold L0; rewrite length_firstn; lia).
  assert (LR0 : List.length R0 = 4%nat)
    by (unfold R0; rewrite length_skipn; lia).
  bind_inv H F1 EF1. pose proof (feistel_length _ _ _ EF1) as LF1.
  rewrite (xor_enumerate_ref L0 F1 LL0 LF1) in H. cbn [bind] in H.
  bind_inv H F2 EF2. pose proof (feistel_length _ _ _ EF2) as LF2.
  rewrite (xor_enumerate_ref R0 F2 LR0 LF2) in H. cbn [bind] in H.
  exists F1, F2. repeat split; try assumption.
  destruct (block_tables k s Hinit) as [_ [_ [R _]]].
  rewrite permute_ref in H; [congruence |].
  unfold len. rewrite length_app, !ref_xor_length by congruence.
  rewrite LR0, LL0. exact R.
Qed.

(** The converse: the two rounds return as soon as both calls of the round
    function do. *)
Lemma crypt_from_steps (ka kb block F1 F2 : list Z) :
  (8 <= List.length block)%nat ->
  let ip := Ref.permute (firstn 8 block) (IP s) in
  let L0 := firstn 4 ip in
  let R0 := skipn 4 ip in
  feistel s R0 ka = OK F1 -> feistel s (Ref.xor L0 F1) kb = OK F2 ->
  crypt s ka kb block
  = OK (Ref.permute (Ref.xor R0 F2 ++ Ref.xor L0 F1) (IP_INV s)).
Proof.
  intros Hl ip L0 R0 EF1 EF2.
  destruct (IP_long block Hl) as [Eip Lip]. fold ip in Eip, Lip.
  unfold crypt. rewrite Eip. cbn [bind].
  destruct (slices_of_8 ip Lip) as [-> ->]. fold L0 R0.
  assert (LL0 : List.length L0 = 4%nat)
    by (unfold L0; rewrite length_firstn; lia).
  assert (LR0 : List.length R0 = 4%nat)
    by (unfold R0; rewrite length_skipn; lia).
  pose proof (feistel_length _ _ _ EF1) as LF1.
  pose proof (feistel_length _ _ _ EF2) as LF2.
  rewrite EF1. cbn [bind].
  rewrite (xor_enumerate_ref L0 F1 LL0 LF1). cbn [bind].
  rewrite EF2. cbn [bind].
  rewrite (xor_enumerate_ref R0 F2 LR0 LF2). cbn [bind].
  destruct (block_tables k s Hinit) as [_ [_ [R _]]].
  apply permute_ref.
  unfold len. rewrite length_app, !ref_xor_length by congruence.
  rewrite LR0, LL0. exact R.
Qed.

(** Swapping the subkeys undoes a returning run, on any elements. *)
Lemma crypt_inverse (ka kb block c : list Z) :
  crypt s ka kb block = OK c ->
  List.length c = 8%nat /\ crypt s kb ka c = OK (firstn 8 block).
Proof.
  intros H.
  destruct (crypt_steps ka kb block c H)
    as [F1 [F2 [Hl [EF1 [LF1 [EF2 [LF2 Ec]]]]]]].
  destruct (instance_tables k s Hinit) as [Eip [Einv _]].
  rewrite Eip, Einv in *.
  set (ip := Ref.permute (firstn 8 block) [2; 6; 3; 1; 4; 8; 5; 7]) in *.
  assert (Lip : List.length ip = 8%nat) by apply length_map.
  set (L0 := firstn 4 ip) in *. set (R0 := skipn 4 ip) in *.
  assert (LL0 : List.length L0 = 4%nat)
    by (unfold L0; rewrite length_firstn; lia).
  assert (LR0 : List.length R0 = 4%nat)
    by (unfold R0; rewrite length_skipn; lia).
  set (right := Ref.xor L0 F1) in *.
  set (newLeft := Ref.xor R0 F2) in *.
  assert (Lright : List.length right = 4%nat)
    by (unfold right; rewrite ref_xor_length; lia).
  assert (LnewLeft : List.length newLeft = 4%nat)
    by (unfold newLeft; rewrite ref_xor_length; lia).
  assert (Lc : List.length c = 8%nat) by (rewrite Ec; apply length_map).
  split; [exact Lc |].
  assert (Eback : Ref.permute (firstn 8 c) [2; 6; 3; 1; 4; 8; 5; 7]
                  = newLeft ++ right).
  { rewrite firstn_all2 by lia. rewrite Ec.
    clearbody newLeft right. expose_length LnewLeft. expose_length Lright.
    apply IP_INV_then_IP. }
  pose proof (crypt_from_steps kb ka c F2 F1 ltac:(lia)) as Hd.
  rewrite Eip, Einv, Eback in Hd. cbv zeta in Hd.
  destruct (split_4_4 newLeft right LnewLeft) as [E1 E2].
  rewrite E1, E2 in Hd.
  assert (X1 : Ref.xor newLeft F2 = R0)
    by (unfold newLeft; apply ref_xor_cancel; lia).
  assert (X2 : Ref.xor right F1 = L0)
    by (unfold right; apply ref_xor_cancel; lia).
  rewrite X1, X2 in Hd. rewrite (Hd EF2 EF1).
  f_equal. unfold L0, R0. rewrite firstn_skipn. unfold ip.
  assert (L8 : List.length (firstn 8 block) = 8%nat)
    by (rewrite length_firstn; lia).
  clear -L8. expose_length L8. apply IP_then_IP_INV.
Qed.

End Blocks.

(** X11: on an instance the constructor returned, [encrypt] and [decrypt]
    raise [IndexError] on a block of fewer than eight elements. *)
Theorem short_block_raises (k : list Z) (s : SDES) (block : list Z) :
  init k = OK s -> (List.length block < 8)%nat ->
  encrypt s block = Raise IndexError /\ decrypt s block = Raise IndexError.
Proof.
  intros Hs Hl. unfold encrypt, decrypt.
  rewrite (IP_short k s Hs block Hl). split; reflexivity.
Qed.

Lemma short_block_raises_witness :
  encrypt example_sdes [1; 1; 0; 1; 0; 1; 1] = Raise IndexError /\
  decrypt example_sdes [1; 1; 0; 1; 0; 1; 1] = Raise IndexError.
Proof.
  apply (short_block_raises example_key example_sdes [1; 1; 0; 1; 0; 1; 1]).
  - reflexivity.
  - cbn. lia.
Defined.

(** X12: a block of more than eight elements is not rejected: [encrypt] and
    [decrypt] read its first eight elements and ignore the rest. *)
Theorem long_block_truncated (k : list Z) (s : SDES) (block : list Z) :
  init k = OK s -> (8 <= List.length block)%nat ->
  encrypt s block = encrypt s (firstn 8 block) /\
  decrypt s block = decrypt s (firstn 8 block).
Proof.
  intros Hs Hl.
  assert (L8 : (8 <= List.length (firstn 8 block))%nat)
    by (rewrite length_firstn; lia).
  destruct (IP_long k s Hs block Hl) as [E _].
  destruct (IP_long k s Hs (firstn 8 block) L8) as [E' _].
  rewrite firstn_firstn in E'. cbn [Nat.min] in E'.
  unfold encrypt, decrypt. rewrite E, E'. split; reflexivity.
Qed.

Lemma long_block_truncated_witness :
  encrypt example_sdes [1; 1; 0; 1; 0; 1; 1; 1; 0; 5]
  = encrypt example_sdes [1; 1; 0; 1; 0; 1; 1; 1].
Proof.
  apply (long_block_truncated example_key example_sdes
           [1; 1; 0; 1; 0; 1; 1; 1; 0; 5]).
  - reflexivity.
  - cbn. lia.
Defined.

(** X13: the round trip needs no well-formed input. On any instance the
    constructor returned, whatever the key and the block hold, if [encrypt]
    returns then its result has eight elements and [decrypt] maps it back
    to the first eight elements of the block; and the same with [encrypt]
    and [decrypt] exchanged. *)
Theorem round_trip_when_returns (k : list Z) (s : SDES) (block c : list Z) :
  init k = OK s ->
  (encrypt s block = OK c ->
   List.length c = 8%nat /\ decrypt s c = OK (firstn 8 block)) /\
  (decrypt s block = OK c ->
   List.length c = 8%nat /\ encrypt s c = OK (firstn 8 block)).
Proof.
  intros Hs. split; intros H.
  - exact (crypt_inverse k s Hs (K1 s) (K2 s) block c H).
  - exact (crypt_inverse k s Hs (K2 s) (K1 s) block c H).
Qed.

Lemma round_trip_when_returns_witness :
  decrypt example_sdes [0; 1; 0; 0; 1; 0; -2; 0]
  = OK [-1; 0; 0; 0; 0; 0; 0; 0].
Proof.
  apply (proj1 (round_trip_when_returns example_key example_sdes
                  [-1; 0; 0; 0; 0; 0; 0; 0; 9]
                  [0; 1; 0; 0; 1; 0; -2; 0] eq_refl)).
  reflexivity.
Defined.

(** ** Keys whose two subkeys coincide *)



(** ** Complementing the key and the block *)

Lemma is_bit_complement (b : Z) : is_bit b -> is_bit (1 - b).
Proof. intros [-> | ->]; [now right | now left]. Qed.

Lemma complement_bits (n : nat) (l : list Z) :
  bits n l -> bits n (complement l).
Proof.
  intros [L F]. split; [unfold complement; now rewrite length_map |].
  unfold complement. apply Forall_map.
  eapply Forall_impl; [| exact F]. apply is_bit_complement.
Qed.

Lemma complement_app (a b : list Z) :
  complement a ++ complement b = complement (a ++ b).
Proof. unfold complement. now rewrite map_app. Qed.

Lemma ref_permute_complement (source table : list Z) :
  Forall (fun t => 1 <= t <= len source) table ->
  Ref.permute (complement source) table
  = complement (Ref.permute source table).
Proof.
  intros H. unfold Ref.permute, complement. rewrite map_map.
  apply map_ext_in. intros t Ht.
  rewrite Forall_forall in H. specialize (H t Ht). unfold len in H.
  rewrite (nth_indep _ 0 (1 - 0)) by (rewrite length_map; lia).
  apply (map_nth (fun b => 1 - b)).
Qed.

Lemma xor_complement_both (a b : list Z) :
  Forall is_bit a -> Forall is_bit b ->
  Ref.xor (complement a) (complement b) = Ref.xor a b.
Proof.
  intros Fa. revert b.
  induction Fa as [| x xs Hx _ IH]; intros b Fb; [reflexivity |].
  destruct Fb as [| y ys Hy Fy]; [reflexivity |].
  unfold Ref.xor, complement in *. cbn. f_equal; [| now apply IH].
  destruct Hx as [-> | ->], Hy as [-> | ->]; reflexivity.
Qed.

Lemma xor_complement_left (a b : list Z) :
  Forall is_bit a -> Forall is_bit b ->
  Ref.xor (complement a) b = complement (Ref.xor a b).
Proof.
  intros Fa. revert b.
  induction Fa as [| x xs Hx _ IH]; intros b Fb; [reflexivity |].
  destruct Fb as [| y ys Hy Fy]; [reflexivity |].
  unfold Ref.xor, complement in *. cbn. f_equal; [| now apply IH].
  destruct Hx as [-> | ->], Hy as [-> | ->]; reflexivity.
Qed.

Lemma select_complement (k : list Z) (positions : list nat) :
  Forall (fun i => (i < List.length k)%nat) positions ->
  select (complement k) positions = complement (select k positions).
Proof.
  intros H. unfold select, complement. rewrite map_map.
  apply map_ext_in. intros i Hi.
  rewrite Forall_forall in H. specialize (H i Hi).
  rewrite (nth_indep _ 0 (1 - 0)) by (rewrite length_map; lia).
  apply (map_nth (fun b => 1 - b)).
Qed.

Section Complement.

Variables (k : list Z) (s : SDES).
Hypothesis Hinit : init k = OK s.

Lemma ref_feistel_complement (half subkey : list Z) :
  bits 4 half -> bits 8 subkey ->
  Ref.feistel s (complement half) (complement subkey)
  = Ref.feistel s half subkey.
Proof.
  intros Hh Hk. destruct (expanded_bits k s Hinit half Hh) as [_ Be].
  unfold Ref.feistel. cbv zeta.
  rewrite ref_permute_complement.
  - now rewrite xor_complement_both by (apply Be || apply Hk).
  - destruct (instance_tables k s Hinit) as [_ [_ [-> _]]].
    unfold len. rewrite (proj1 Hh). closed_range.
Qed.

Lemma ref_rounds_complement (ka kb block : list Z) :
  bits 8 ka -> bits 8 kb -> wf_block block ->
  Ref.rounds s (complement ka) (complement kb) (complement block)
  = complement (Ref.rounds s ka kb block).
Proof.
  intros Ha Hb Hblock.
  destruct (rounds_trace k s Hinit ka kb block Ha Hb Hblock)
    as [_ [Bip [_ [BF1 [BL0 [BR0 [_ [BF2 _]]]]]]]].
  destruct (block_tables k s Hinit) as [Rip [_ [Rinv _]]].
  pose proof (ref_xor_bits 4 _ _ BL0 BF1) as Bright.
  pose proof (ref_xor_bits 4 _ _ BR0 BF2) as Bleft.
  unfold Ref.rounds. cbv zeta.
  rewrite ref_permute_complement
    by (unfold len; now rewrite (proj1 Hblock)).
  set (ip := Ref.permute block (IP s)) in *.
  replace (firstn 4 (complement ip)) with (complement (firstn 4 ip))
    by (unfold complement; now rewrite firstn_map).
  replace (skipn 4 (complement ip)) with (complement (skipn 4 ip))
    by (unfold complement; now rewrite skipn_map).
  set (L0 := firstn 4 ip) in *. set (R0 := skipn 4 ip) in *.
  rewrite (ref_feistel_complement R0 ka BR0 Ha).
  rewrite (xor_complement_left L0 _ (proj2 BL0) (proj2 BF1)).
  rewrite (ref_feistel_complement _ kb Bright Hb).
  rewrite (xor_complement_left R0 _ (proj2 BR0) (proj2 BF2)).
  rewrite complement_app. apply ref_permute_complement.
  pose proof (bits_app 4 4 _ _ Bleft Bright) as Bout.
  unfold len. rewrite (proj1 Bout). exact Rinv.
Qed.

(** The reference rounds read the tables only, which every instance
    shares. *)
Lemma ref_rounds_tables (k' : list Z) (s' : SDES) (ka kb block : list Z) :
  init k' = OK s' ->
  Ref.rounds s' ka kb block = Ref.rounds s ka kb block.
Proof.
  intros Hs'.
  destruct (instance_tables k s Hinit) as [E1 [E2 [E3 [E4 [E5 E6]]]]].
  destruct (instance_tables k' s' Hs') as [F1 [F2 [F3 [F4 [F5 F6]]]]].
  unfold Ref.rounds, Ref.feistel.
  now rewrite E1, E2, E3, E4, E5, E6, F1, F2, F3, F4, F5, F6.
Qed.

End Complement.

(** X15: the complementation property. For a well-formed key and block,
    encrypting the complemented block under the complemented key gives the
    complement of the ciphertext: the subkeys of the complemented key are
    the complemented subkeys, and the round function sees the same
    input. *)
Theorem complement_property (k block : list Z) :
  wf_key k -> wf_block block ->
  exists s s' c,
    init k = OK s /\ init (complement k) = OK s' /\
    K1 s' = complement (K1 s) /\ K2 s' = complement (K2 s) /\
    encrypt s block = OK c /\
    encrypt s' (complement block) = OK (complement c).
Proof.
  intros Hk Hb.
  pose proof (complement_bits 10 k Hk) as Hk'.
  pose proof (complement_bits 8 block Hb) as Hb'.
  destruct (init_long k) as [s [Hs [_ [H1 H2]]]];
    [rewrite (proj1 Hk); lia |].
  destruct (init_long (complement k)) as [s' [Hs' [_ [H1' H2']]]];
    [rewrite (proj1 Hk'); lia |].
  assert (E1 : K1 s' = complement (K1 s)).
  { rewrite H1, H1'. apply select_complement.
    rewrite (proj1 Hk). repeat (apply Forall_cons; [lia |]). apply Forall_nil. }
  assert (E2 : K2 s' = complement (K2 s)).
  { rewrite H2, H2'. apply select_complement.
    rewrite (proj1 Hk). repeat (apply Forall_cons; [lia |]). apply Forall_nil. }
  destruct (subkeys_bits k s Hs Hk) as [B1 B2].
  destruct (encrypt_ref k s Hs Hk block Hb) as [He _].
  destruct (encrypt_ref (complement k) s' Hs' Hk' _ Hb') as [He' _].
  exists s, s', (Ref.rounds s (K1 s) (K2 s) block).
  split; [exact Hs |]. split; [exact Hs' |].
  split; [exact E1 |]. split; [exact E2 |]. split; [exact He |].
  rewrite He', E1, E2. f_equal.
  rewrite (ref_rounds_tables k s Hs _ s' _ _ _ Hs').
  now apply (ref_rounds_complement k s Hs).
Qed.

Lemma complement_property_witness :
  exists s s' c,
    init example_key = OK s /\ init (complement example_key) = OK s' /\
    K1 s' = complement (K1 s) /\ K2 s' = complement (K2 s) /\
    encrypt s example_plaintext = OK c /\
    encrypt s' (complement example_plaintext) = OK (complement c).
Proof.
  apply (complement_property example_key example_plaintext); closed_bits.
Defined.

(** ** Lengths the round function and [sbox] accept *)

(** X16: [sbox] raises [IndexError] on fewer than four elements and reads
    only the first four of a longer list. *)
Theorem sbox_half_length (self : SDES) (half : list Z)
        (table : list (list Z)) :
  ((List.length half < 4)%nat -> sbox self half table = Raise IndexError) /\
  ((4 <= List.length half)%nat ->
   sbox self half table = sbox self (firstn 4 half) table).
Proof.
  split; intros Hl.
  - do 4 (destruct half as [| ? half]; [reflexivity |]). cbn in Hl. lia.
  - do 4 (destruct half as [| ? half]; [cbn in Hl; lia |]).
    cbn [firstn]. rewrite sbox_lookups. unfold sbox.
    rewrite (index_nonneg _ 0 0), (index_nonneg _ 3 0),
      (index_nonneg _ 1 0), (index_nonneg _ 2 0)
      by (unfold len; cbn [List.length]; lia).
    cbn [bind]. change (Z.to_nat 0) with 0%nat.
    change (Z.to_nat 1) with 1%nat. change (Z.to_nat 2) with 2%nat.
    change (Z.to_nat 3) with 3%nat. cbn [nth].
    rewrite !Z.shiftl_mul_pow2 by lia. change (2 ^ 1) with 2.
    now rewrite !(Z.mul_comm _ 2).
Qed.

Lemma sbox_half_length_witness :
  sbox example_sdes [1; 0; 1] (S0 example_sdes) = Raise IndexError /\
  sbox example_sdes [1; 0; 1; 1; 5; 5] (S0 example_sdes)
  = sbox example_sdes [1; 0; 1; 1] (S0 example_sdes).
Proof.
  split.
  - apply (proj1 (sbox_half_length example_sdes [1; 0; 1]
                    (S0 example_sdes))). cbn. lia.
  - apply (proj2 (sbox_half_length example_sdes [1; 0; 1; 1; 5; 5]
                    (S0 example_sdes))). cbn. lia.
Defined.

Lemma mix_prefix (e k : list Z) :
  List.length e = 8%nat -> (8 <= List.length k)%nat ->
  comprehension (fun i => a <- index e i ;; b <- index k i ;; OK (Z.lxor a b))
                (range 8)
  = OK (Ref.xor e (firstn 8 k)).
Proof.
  intros He Hk.
  rewrite (comprehension_map _ (fun i => Z.lxor (nth (Z.to_nat i) e 0)
                                                (nth (Z.to_nat i) k 0))).
  - f_equal. expose_length He.
    do 8 (destruct k as [| ? k]; [cbn in Hk; lia |]). reflexivity.
  - apply Forall_forall. intros i Hi.
    assert (0 <= i < 8).
    { unfold range in Hi. apply in_map_iff in Hi as [j [<- Hj]].
      apply in_seq in Hj. lia. }
    rewrite (index_nonneg e i 0), (index_nonneg k i 0)
      by (unfold len; lia).
    reflexivity.
Qed.

Lemma mix_short (e k : list Z) :
  List.length e = 8%nat -> (List.length k < 8)%nat ->
  comprehension (fun i => a <- index e i ;; b <- index k i ;; OK (Z.lxor a b))
                (range 8)
  = Raise IndexError.
Proof.
  intros He Hk.
  set (f := fun i => a <- index e i ;; b <- index k i ;; OK (Z.lxor a b)).
  destruct (comprehension_raises f (range 8)) as [x Hx].
  - apply Exists_exists. exists 7. split; [cbn; auto 10 |].
    exists IndexError. unfold f.
    rewrite (index_nonneg e 7 0) by (unfold len; lia). cbn [bind].
    rewrite index_outside by (unfold len; lia). reflexivity.
  - rewrite Hx. f_equal.
    apply comprehension_raised in Hx. apply Exists_exists in Hx.
    destruct Hx as [i [_ Hi]]. unfold f in Hi.
    destruct (index_cases e i) as [[a [Ea _]] | [Ea _]];
      rewrite Ea in Hi; cbn [bind] in Hi; [| congruence].
    destruct (index_cases k i) as [[b [Eb _]] | [Eb _]];
      rewrite Eb in Hi; cbn [bind] in Hi; congruence.
Qed.

(** X17: on an instance the constructor returned, [feistel] raises
    [IndexError] when the half has fewer than four elements or the subkey
    fewer than eight, and otherwise reads only the first four elements of
    the half and the first eight of the subkey. *)
Theorem feistel_lengths (k : list Z) (s : SDES) (half subkey : list Z) :
  init k = OK s ->
  ((List.length half < 4)%nat ->
   feistel s half subkey = Raise IndexError) /\
  ((4 <= List.length half)%nat -> (List.length subkey < 8)%nat ->
   feistel s half subkey = Raise IndexError) /\
  ((4 <= List.length half)%nat -> (8 <= List.length subkey)%nat ->
   feistel s half subkey = feistel s (firstn 4 half) (firstn 8 subkey)).
Proof.
  intros Hs. destruct (instance_tables k s Hs) as [_ [_ [EEP _]]].
  assert (REP : Forall (fun t => 1 <= t <= Z.of_nat 4) (EP s))
    by (rewrite EEP; closed_range).
  assert (Long : forall h, (4 <= List.length h)%nat ->
            permute s h (EP s) = OK (Ref.permute (firstn 4 h) (EP s)) /\
            List.length (Ref.permute (firstn 4 h) (EP s)) = 8%nat).
  { intros h Hh. split.
    - rewrite permute_ref.
      + f_equal. now apply ref_permute_prefix.
      + eapply Forall_impl; [| exact REP]. cbv beta. unfold len. lia.
    - unfold Ref.permute. now rewrite length_map, EEP. }
  split; [| split].
  - intros Hl. unfold feistel.
    rewrite (proj1 (permute_rejects s half (EP s))); [reflexivity |].
    rewrite EEP. apply Exists_exists. exists 4. split; [cbn; auto 10 |].
    right. unfold len. lia.
  - intros Hh Hk. destruct (Long half Hh) as [E L].
    unfold feistel. rewrite E. cbn [bind].
    now rewrite (mix_short _ subkey L Hk).
  - intros Hh Hk. destruct (Long half Hh) as [E L].
    destruct (Long (firstn 4 half)) as [E' _];
      [rewrite length_firstn; lia |].
    rewrite firstn_firstn in E'. cbn [Nat.min] in E'.
    unfold feistel. rewrite E, E'. cbn [bind].
    rewrite (mix_prefix _ subkey L Hk).
    rewrite (mix_prefix _ (firstn 8 subkey) L)
      by (rewrite length_firstn; lia).
    now rewrite firstn_firstn.
Qed.

Lemma feistel_lengths_witness :
  feistel example_sdes [1; 0; 1] (K1 example_sdes) = Raise IndexError /\
  feistel example_sdes [1; 0; 1; 1] [1; 0; 1] = Raise IndexError /\
  feistel example_sdes [1; 0; 1; 1; 9] (K1 example_sdes ++ [9])
  = feistel example_sdes [1; 0; 1; 1] (K1 example_sdes).
Proof.
  destruct (feistel_lengths example_key example_sdes [1; 0; 1]
              (K1 example_sdes) eq_refl) as [H1 _].
  destruct (feistel_lengths example_key example_sdes [1; 0; 1; 1]
              [1; 0; 1] eq_refl) as [_ [H2 _]].
  destruct (feistel_lengths example_key example_sdes [1; 0; 1; 1; 9]
              (K1 example_sdes ++ [9]) eq_refl) as [_ [_ H3]].
  split; [apply H1; cbn; lia |].
  split; [apply H2; cbn; lia |].
  apply H3; cbn; lia.
Defined.

(** ** The only exception raised *)

Lemma index_raise_kind {A : Type} (l : list A) (i : Z) (e : exn) :
  index l i = Raise e -> e = IndexError.
Proof.
  intros H. destruct (index_cases l i) as [[a [Ha _]] | [Hr _]]; congruence.
Qed.

Lemma index_In {A : Type} (l : list A) (i : Z) (a : A) :
  index l i = OK a -> In a l.
Proof.
  unfold index. destruct (_ || _); [discriminate |].
  destruct (nth_error l _) eqn:E; [| discriminate].
  intros [= <-]. eapply nth_error_In, E.
Qed.

Lemma comprehension_kind {A B : Type} (f : A -> result B) (l : list A)
      (e0 e : exn) :
  (forall x e', f x = Raise e' -> e' = e0) ->
  comprehension f l = Raise e -> e = e0.
Proof.
  intros Hf H. apply comprehension_raised in H. apply Exists_exists in H.
  destruct H as [x [_ Hx]]. now apply (Hf x).
Qed.

Lemma permute_kind (self : SDES) (source table : list Z) (e : exn) :
  permute self source table = Raise e -> e = IndexError.
Proof.
  apply comprehension_kind. intros t e'. apply index_raise_kind.
Qed.

(** Step over one lookup in a hypothesis that says a computation raised. *)
Ltac raise_step H x E :=
  match type of H with
  | bind ?m _ = Raise _ =>
      destruct m as [x |] eqn:E; cbn [bind] in H;
      [| first [ apply index_raise_kind in E | apply permute_kind in E ];
         congruence ]
  end.

Lemma sbox_kind (self : SDES) (half : list Z) (table : list (list Z))
      (e : exn) :
  wf_sbox table -> sbox self half table = Raise e -> e = IndexError.
Proof.
  intros [_ Hrows] H. unfold sbox in H.
  raise_step H h0 E0. raise_step H h3 E3.
  raise_step H h1 E1. raise_step H h2 E2.
  raise_step H r Er. raise_step H v Ev.
  apply index_In in Er, Ev.
  rewrite Forall_forall in Hrows. destruct (Hrows r Er) as [_ Hv].
  rewrite Forall_forall in Hv.
  rewrite (format_bits2 v (Hv v Ev)) in H. discriminate H.
Qed.

Lemma xor_enumerate_kind (left f : list Z) (e : exn) :
  xor_enumerate left f = Raise e -> e = IndexError.
Proof.
  apply comprehension_kind. intros [i b] e' H. cbn [fst snd] in H.
  destruct (index left i) eqn:E; cbn [bind] in H; [discriminate |].
  apply index_raise_kind in E. congruence.
Qed.

Section Raises.

Variables (k : list Z) (s : SDES).
Hypothesis Hinit : init k = OK s.

Lemma feistel_kind (half subkey : list Z) (e : exn) :
  feistel s half subkey = Raise e -> e = IndexError.
Proof.
  intros H. unfold feistel in H.
  raise_step H expanded Ee.
  destruct (comprehension _ (range 8)) as [x |] eqn:Ex; cbn [bind] in H.
  - destruct (sbox s _ (S0 s)) as [o0 |] eqn:E0; cbn [bind] in H;
      [| apply (sbox_kind _ _ _ _ (wf_sbox_S0 k s Hinit)) in E0;
         congruence].
    destruct (sbox s _ (S1 s)) as [o1 |] eqn:E1; cbn [bind] in H;
      [| apply (sbox_kind _ _ _ _ (wf_sbox_S1 k s Hinit)) in E1;
         congruence].
    now apply permute_kind in H.
  - injection H as <-. revert Ex. apply comprehension_kind.
    intros i e' Hi.
    destruct (index expanded i) eqn:Ea; cbn [bind] in Hi;
      [| apply index_raise_kind in Ea; congruence].
    destruct (index subkey i) eqn:Eb; cbn [bind] in Hi;
      [discriminate | apply index_raise_kind in Eb; congruence].
Qed.

Lemma crypt_kind (ka kb block : list Z) (e : exn) :
  crypt s ka kb block = Raise e -> e = IndexError.
Proof.
  intros H. unfold crypt in H.
  raise_step H data Ed.
  destruct (feistel s _ ka) as [f1 |] eqn:E1; cbn [bind] in H;
    [| apply feistel_kind in E1; congruence].
  destruct (xor_enumerate _ f1) as [l1 |] eqn:X1; cbn [bind] in H;
    [| apply xor_enumerate_kind in X1; congruence].
  destruct (feistel s l1 kb) as [f2 |] eqn:E2; cbn [bind] in H;
    [| apply feistel_kind in E2; congruence].
  destruct (xor_enumerate _ f2) as [l2 |] eqn:X2; cbn [bind] in H;
    [| apply xor_enumerate_kind in X2; congruence].
  now apply permute_kind in H.
Qed.

End Raises.

(** X18: on lists of integers, [IndexError] is the only exception: the
    constructor raises nothing else, and on an instance it returned neither
    do [encrypt] and [decrypt], whatever the block; in particular the
    conversion of the table value to digits in [sbox] never fails there. *)
Theorem only_index_error (k : list Z) (e : exn) :
  (init k = Raise e -> e = IndexError) /\
  (forall s block,
     init k = OK s ->
     (encrypt s block = Raise e -> e = IndexError) /\
     (decrypt s block = Raise e -> e = IndexError)).
Proof.
  split.
  - destruct (Nat.lt_ge_cases (List.length k) 10) as [Hs | Hl].
    + rewrite (init_short k Hs). congruence.
    + destruct (init_long k Hl) as [s [Hs _]]. rewrite Hs. discriminate.
  - intros s block Hs. split; intros H.
    + exact (crypt_kind k s Hs (K1 s) (K2 s) block e H).
    + exact (crypt_kind k s Hs (K2 s) (K1 s) block e H).
Qed.

Lemma only_index_error_witness :
  encrypt example_sdes [2; 0; 0; 0; 0; 0; 0; 0] = Raise IndexError.
Proof.
  assert (H : exists e, encrypt example_sdes [2; 0; 0; 0; 0; 0; 0; 0]
                        = Raise e) by (eexists; reflexivity).
  destruct H as [e H]. rewrite H. f_equal.
  exact (proj1 (proj2 (only_index_error example_key e) example_sdes
                  [2; 0; 0; 0; 0; 0; 0; 0] eq_refl) H).
Defined.
